(** * discordrb: the mention scanner of ext/discordrb/parse_mentions/parse_mentions.c

    A shallow embedding of the C extension that extracts user, role, channel
    and emoji mentions from a message body, and the properties of its scan.

    Memory model.  A [char *] is an index into a byte buffer; the byte read
    past the end of the buffer is the terminating NUL that every Ruby string
    carries.  Heap strings ([inner_ptr], [id_str]) are modelled by their
    content up to the terminator.

    The allocator is not part of the repository; what the scan needs of it
    is one function, [usable]: the number of bytes of the block that
    [malloc(n)] returns (at least [n] for a real allocator, often more).
    [new_mention] asks for [(rab - lab) - 1] bytes and then stores a
    terminator at index [(rab - lab) - 1]: the store lands inside the block
    when the allocator gave more than was asked, and past its end when the
    block is exactly as large as the request.  A store past the end of a
    block and a dereference of NULL are undefined behaviour: the outcome
    [Fault].  What the process does after that (it may crash at once, abort
    later in [free], or go on and return records made of bytes that lie
    outside the token) depends on the bookkeeping of the allocator and is not
    modelled.  [malloc] is taken to succeed.

    The scan is modelled twice: first on values alone ([new_mention] to
    [find_mentions]), then with its calls of [malloc] and [free] counted
    ([new_mention_mem] to [find_mentions_mem], [destroy_mentions]).  The Ruby
    binding ([rb_mention_to_rb_ary], [rb_parse_mentions]) is modelled on the
    second; the objects Ruby allocates for it are collected by Ruby and are
    not counted, and Ruby is taken not to raise. *)

From Stdlib Require Import Ascii String Bool Arith ZArith Lia List.
Import ListNotations.

Local Open Scope char_scope.
Local Open Scope list_scope.
Local Open Scope nat_scope.

(** ** Outcomes of a C call *)

Inductive result (A : Type) : Type :=
| Ok (a : A)      (* the call returns [a] *)
| Fault           (* undefined behaviour: a NULL pointer is dereferenced, or
                     a byte is stored past the end of its block *)
| OutOfFuel.      (* the model ran out of loop iterations (never the case,
                     see [find_mentions_loop_fuel]) *)

Arguments Ok {A} a.
Arguments Fault {A}.
Arguments OutOfFuel {A}.

Definition bind {A B : Type} (r : result A) (k : A -> result B) : result B :=
  match r with
  | Ok a => k a
  | Fault => Fault
  | OutOfFuel => OutOfFuel
  end.

Notation "x <- r ;; k" := (bind r (fun x => k))
  (at level 61, r at next level, right associativity).

Definition rmap {A B : Type} (f : A -> B) (r : result A) : result B :=
  x <- r ;; Ok (f x).

(** ** C strings *)

Definition cstring := list ascii.

Definition NUL : ascii := "000".

(** [*(buf + p)]; the buffer is followed by its terminator. *)
Definition deref (buf : cstring) (p : nat) : ascii := nth p buf NUL.

(** The bytes of a Ruby [String] as [StringValuePtr] hands them to C. *)
Definition cstr (s : string) : cstring := list_ascii_of_string s.

(** A [char] promoted to [int], on an ABI where [char] is signed. *)
Definition char_to_int (c : ascii) : Z :=
  let n := Z.of_nat (nat_of_ascii c) in
  if (n <? 128)%Z then n else (n - 256)%Z.

(** The same on an ABI where [char] is unsigned. *)
Definition uchar_to_int (c : ascii) : Z := Z.of_nat (nat_of_ascii c).

(** [strchr(s, c)], with [s] the buffer from index [p] on: the index of the
    first byte equal to [c], looking no further than the terminator. *)
Fixpoint strchr_loop (s : cstring) (p : nat) (c : ascii) : option nat :=
  match s with
  | [] => if Ascii.eqb c NUL then Some p else None
  | x :: s' =>
      if Ascii.eqb x c then Some p
      else if Ascii.eqb x NUL then None
      else strchr_loop s' (S p) c
  end.

Definition strchr (buf : cstring) (src : nat) (c : ascii) : option nat :=
  strchr_loop (skipn src buf) src c.

(** The string [strcpy] copies out of [src]: its bytes before the first NUL. *)
Fixpoint strcpy (src : cstring) : cstring :=
  match src with
  | [] => []
  | c :: src' => if Ascii.eqb c NUL then [] else c :: strcpy src'
  end.

(** The string held in [dst] after [strncpy(dst, src, n)] and a terminator
    stored at [dst[n]], when that store is inside the block of [dst]. *)
Definition strncpy (src : cstring) (n : nat) : cstring :=
  strcpy (firstn n src).

(** ** The allocator *)

(** The blocks of glibc's [malloc] on a 64-bit platform, as
    [malloc_usable_size] reports them: the request and 8 bytes of header,
    rounded up to a multiple of 16 and to 32 at least, less the header.  A
    request of 24, 40, 56, ... bytes gets a block of exactly that size. *)
Definition glibc_usable (n : nat) : nat :=
  Nat.max 24 (16 * ((n + 23) / 16) - 8).

(** An allocator that gives one byte more than is asked. *)
Definition spare_byte (n : nat) : nat := S n.

(** ** ensure_int_str (lines 5-17) *)

Fixpoint ensure_int_str_loop (ptr : cstring) (is_int_str : bool) : bool :=
  match ptr with
  | [] => is_int_str
  | c :: ptr' =>
      if Ascii.eqb c NUL then is_int_str
      else
        ensure_int_str_loop ptr'
          (if ((char_to_int c >? char_to_int "9")
               || (char_to_int c <? char_to_int "0"))%Z
           then false else is_int_str)
  end.

Definition ensure_int_str (str : cstring) : bool :=
  ensure_int_str_loop str true.

(** The loop of lines 9-14 on an ABI whose [char] is unsigned: the same
    comparisons, on the values [0] to [255]. *)
Fixpoint ensure_int_str_loop_unsigned (ptr : cstring) (is_int_str : bool) :
    bool :=
  match ptr with
  | [] => is_int_str
  | c :: ptr' =>
      if Ascii.eqb c NUL then is_int_str
      else
        ensure_int_str_loop_unsigned ptr'
          (if ((uchar_to_int c >? uchar_to_int "9")
               || (uchar_to_int c <? uchar_to_int "0"))%Z
           then false else is_int_str)
  end.

Definition ensure_int_str_unsigned (str : cstring) : bool :=
  ensure_int_str_loop_unsigned str true.

(** ** The mention list (lines 19-60) *)

Inductive MentionType : Type := Error | User | Role | Channel | Emoji.

Definition MentionType_eqb (a b : MentionType) : bool :=
  match a, b with
  | Error, Error | User, User | Role, Role
  | Channel, Channel | Emoji, Emoji => true
  | _, _ => false
  end.

(** A node of the list; [id = None] is the NULL pointer.  The [next] field is
    the tail of the Rocq list that holds the node. *)
Record MentionNode : Type := mkMention {
  id : option cstring;
  type : MentionType
}.

Definition null_mention : MentionNode := {| id := None; type := Error |}.

(** ** new_mention (lines 62-132)

    [usable] is the allocator.  Line 71 asks for [(rab - lab) - 1] bytes,
    line 72 fills them and line 73 stores the terminator one byte further:
    past the end of the block when the block has no byte to spare. *)

Definition new_mention (usable : nat -> nat) (buf : cstring)
    (mention : MentionNode) (lab : option nat) (rab : nat) :
    result MentionNode :=
  match lab with
  | None => Fault                       (* [rab - lab] and [lab + 1] on NULL *)
  | Some lab =>
      if rab <=? lab then Fault         (* [(rab - lab) - 1] is negative *)
      else if usable (rab - lab - 1) <=? rab - lab - 1
      then Fault                        (* line 73 stores past the block *)
      else
        let offset := 1 in
        let inner_ptr := strncpy (skipn (lab + 1) buf) (rab - lab - 1) in
        let c0 := deref inner_ptr 0 in
        if Ascii.eqb c0 "@" then
          let '(type, offset) :=
            if Ascii.eqb (deref inner_ptr 1) "!" then (User, S offset)
            else if Ascii.eqb (deref inner_ptr 1) "&" then (Role, S offset)
            else (User, offset) in
          let id_str := strcpy (skipn offset inner_ptr) in
          let status := ensure_int_str id_str in
          if status then Ok {| id := Some id_str; type := type |}
          else Ok {| id := id mention; type := Error |}
        else if Ascii.eqb c0 "#" then
          let status := ensure_int_str (skipn offset inner_ptr) in
          let id_str := strcpy (skipn offset inner_ptr) in
          Ok {| id := Some id_str;
                type := if status then Channel else Error |}
        else if Ascii.eqb c0 "a" || Ascii.eqb c0 ":" then
          Ok {| id := Some inner_ptr; type := Emoji |}
        else
          Ok {| id := id mention; type := Error |}
  end.

(** ** add_mention (lines 134-148)

    [mentions] is the whole list, head sentinel first; the empty list is the
    NULL pointer, which line 139 dereferences.  The walk to the last node
    followed by [mention_node->next = next_node] appends at the end. *)

Definition add_mention (usable : nat -> nat) (buf : cstring)
    (mentions : list MentionNode) (lab : option nat) (rab : nat) :
    result (list MentionNode) :=
  let next_node := null_mention in
  match mentions with
  | [] => Fault
  | _ :: _ =>
      next_node <- new_mention usable buf next_node lab rab ;;
      if negb (MentionType_eqb (type next_node) Error)
         && (match id next_node with Some _ => true | None => false end)
      then Ok (mentions ++ [next_node])
      else Ok mentions
  end.

(** ** find_closest_lab (lines 150-160) *)

Fixpoint find_closest_lab_loop (buf : cstring) (src lab_ptr : nat) : nat :=
  match lab_ptr with
  | 0 => lab_ptr
  | S lab_ptr' =>
      if negb (Ascii.eqb (deref buf lab_ptr) "<") && (src <? lab_ptr)
      then find_closest_lab_loop buf src lab_ptr'
      else lab_ptr
  end.

Definition find_closest_lab (buf : cstring) (src rab : nat) : option nat :=
  let lab_ptr := find_closest_lab_loop buf src rab in
  if (lab_ptr =? src) && negb (Ascii.eqb (deref buf lab_ptr) "<")
  then None
  else Some lab_ptr.

(** ** find_mention (lines 162-175)

    Returns the cursor for the next call ([None] is NULL) and the list. *)

Definition find_mention (usable : nat -> nat) (buf : cstring) (src : nat)
    (mentions : list MentionNode) : result (option nat * list MentionNode) :=
  match strchr buf src ">" with
  | None => Ok (None, mentions)
  | Some rab =>
      let lab := find_closest_lab buf src rab in
      mentions' <- add_mention usable buf mentions lab rab ;;
      Ok (Some (S rab), mentions')
  end.

(** ** find_mentions (lines 177-184) *)

Fixpoint find_mentions_loop (usable : nat -> nat) (fuel : nat)
    (buf : cstring) (ptr : nat) (mentions : list MentionNode) :
    result (list MentionNode) :=
  match fuel with
  | 0 => OutOfFuel
  | S fuel' =>
      r <- find_mention usable buf ptr mentions ;;
      match r with
      | (None, mentions') => Ok mentions'
      | (Some ptr', mentions') =>
          find_mentions_loop usable fuel' buf ptr' mentions'
      end
  end.

(** Every iteration moves the cursor past one byte of the buffer, so one more
    iteration than the buffer has bytes is enough. *)
Definition find_mentions (usable : nat -> nat) (src : cstring) :
    result (list MentionNode) :=
  let mentions := [null_mention] in
  find_mentions_loop usable (S (length src)) src 0 mentions.

(** A node as the scan builds it, written with a string literal. *)
Definition mention (t : MentionType) (s : string) : MentionNode :=
  {| id := Some (cstr s); type := t |}.

(** ** malloc and free

    The calls of [malloc] and [free] are followed through a counter: the
    number of blocks obtained from [malloc] and not yet given back.  Every
    pointer of the program has one owner (a local variable, the [id] field
    of one node, the [next] field of one node), so the counter tells what is
    still allocated; which addresses the blocks have is not modelled. *)

Definition mem (A : Type) : Type := Z -> result (A * Z).

Definition mret {A : Type} (a : A) : mem A := fun live => Ok (a, live).

Definition mbind {A B : Type} (c : mem A) (k : A -> mem B) : mem B :=
  fun live =>
    match c live with
    | Ok (a, live') => k a live'
    | Fault => Fault
    | OutOfFuel => OutOfFuel
    end.

Notation "x <~ c ;; k" := (mbind c (fun x => k))
  (at level 61, c at next level, right associativity).

Definition mfault {A : Type} : mem A := fun _ => Fault.

(** A call that does not touch the heap. *)
Definition lift {A : Type} (r : result A) : mem A :=
  fun live =>
    match r with
    | Ok a => Ok (a, live)
    | Fault => Fault
    | OutOfFuel => OutOfFuel
    end.

(** [malloc(n)]: one more block. *)
Definition malloc : mem unit := fun live => Ok (tt, (live + 1)%Z).

(** [free(p)]: one block less, nothing for NULL. *)
Definition free {A : Type} (p : option A) : mem unit :=
  fun live =>
    match p with
    | Some _ => Ok (tt, (live - 1)%Z)
    | None => Ok (tt, live)
    end.

(** ** destroy_mentions (lines 35-51)

    The list is the node [mentions] points to followed by its [next]
    chain. *)
Fixpoint destroy_mentions (mentions : list MentionNode) : mem unit :=
  match mentions with
  | [] => mfault                              (* [mentions->next] on NULL *)
  | current_node :: next =>
      match next with
      | _ :: _ =>
          _ <~ free (id current_node) ;;
          _ <~ free (Some current_node) ;;
          destroy_mentions next
      | [] =>
          _ <~ (if negb (MentionType_eqb (type current_node) Error)
                then free (id current_node)
                else mret tt) ;;
          free (Some current_node)
      end
  end.

(** ** null_mention (lines 53-60), with its allocation *)

Definition null_mention_mem : mem MentionNode :=
  _ <~ malloc ;;
  mret null_mention.

(** ** new_mention (lines 62-132), with its allocations *)

Definition new_mention_mem (usable : nat -> nat) (buf : cstring)
    (mention : MentionNode) (lab : option nat) (rab : nat) :
    mem MentionNode :=
  match lab with
  | None => mfault
  | Some lab =>
      if rab <=? lab then mfault
      else
        let offset := 1 in
        _ <~ malloc ;;
        if usable (rab - lab - 1) <=? rab - lab - 1 then mfault
        else
        let inner_ptr := strncpy (skipn (lab + 1) buf) (rab - lab - 1) in
        let c0 := deref inner_ptr 0 in
        if Ascii.eqb c0 "@" then
          let '(type, offset) :=
            if Ascii.eqb (deref inner_ptr 1) "!" then (User, S offset)
            else if Ascii.eqb (deref inner_ptr 1) "&" then (Role, S offset)
            else (User, offset) in
          _ <~ malloc ;;
          let id_str := strcpy (skipn offset inner_ptr) in
          _ <~ free (Some inner_ptr) ;;
          let status := ensure_int_str id_str in
          if status then mret {| id := Some id_str; type := type |}
          else
            _ <~ free (Some id_str) ;;
            mret {| id := id mention; type := Error |}
        else if Ascii.eqb c0 "#" then
          let status := ensure_int_str (skipn offset inner_ptr) in
          _ <~ malloc ;;
          let id_str := strcpy (skipn offset inner_ptr) in
          _ <~ free (Some inner_ptr) ;;
          mret {| id := Some id_str;
                  type := if status then Channel else Error |}
        else if Ascii.eqb c0 "a" || Ascii.eqb c0 ":" then
          mret {| id := Some inner_ptr; type := Emoji |}
        else
          _ <~ free (Some inner_ptr) ;;
          mret {| id := id mention; type := Error |}
  end.

(** ** add_mention (lines 134-148), with its allocations *)

Definition add_mention_mem (usable : nat -> nat) (buf : cstring)
    (mentions : list MentionNode) (lab : option nat) (rab : nat) :
    mem (list MentionNode) :=
  next_node <~ null_mention_mem ;;
  match mentions with
  | [] => mfault
  | _ :: _ =>
      next_node <~ new_mention_mem usable buf next_node lab rab ;;
      if negb (MentionType_eqb (type next_node) Error)
         && (match id next_node with Some _ => true | None => false end)
      then mret (mentions ++ [next_node])
      else
        _ <~ destroy_mentions [next_node] ;;
        mret mentions
  end.

(** ** find_mention and find_mentions (lines 162-184), with their
    allocations *)

Definition find_mention_mem (usable : nat -> nat) (buf : cstring) (src : nat)
    (mentions : list MentionNode) : mem (option nat * list MentionNode) :=
  match strchr buf src ">" with
  | None => mret (None, mentions)
  | Some rab =>
      let lab := find_closest_lab buf src rab in
      mentions' <~ add_mention_mem usable buf mentions lab rab ;;
      mret (Some (S rab), mentions')
  end.

Fixpoint find_mentions_loop_mem (usable : nat -> nat) (fuel : nat)
    (buf : cstring) (ptr : nat) (mentions : list MentionNode) :
    mem (list MentionNode) :=
  match fuel with
  | 0 => fun _ => OutOfFuel
  | S fuel' =>
      r <~ find_mention_mem usable buf ptr mentions ;;
      match r with
      | (None, mentions') => mret mentions'
      | (Some ptr', mentions') =>
          find_mentions_loop_mem usable fuel' buf ptr' mentions'
      end
  end.

Definition find_mentions_mem (usable : nat -> nat) (src : cstring) :
    mem (list MentionNode) :=
  mentions <~ null_mention_mem ;;
  find_mentions_loop_mem usable (S (length src)) src 0 [mentions].

(** ** The Ruby binding (lines 186-236) *)

(** The Ruby values the binding meets: [nil], a [String], a [Symbol], an
    [Array], and [T_FIXNUM] for the objects that are none of these. *)
#[local] Unset Elimination Schemes.

Inductive VALUE : Type :=
| Qnil
| T_FIXNUM (n : Z)
| T_SYMBOL (name : string)
| T_STRING (s : string)
| T_ARRAY (elems : list VALUE).

#[local] Set Elimination Schemes.

Definition VALUE_is_nil (v : VALUE) : bool :=
  match v with
  | Qnil => true
  | _ => false
  end.

(** [rb_str_new_cstr(ptr)]: the String of the bytes before the terminator;
    [strlen] reads through the pointer. *)
Definition rb_str_new_cstr (ptr : option cstring) : result VALUE :=
  match ptr with
  | None => Fault
  | Some s => Ok (T_STRING (string_of_list_ascii (strcpy s)))
  end.

(** [rb_ary_push(ary, item)], on the elements of the array. *)
Definition rb_ary_push (ary : list VALUE) (item : VALUE) : list VALUE :=
  ary ++ [item].

Definition rb_mention_to_rb_ary (node : MentionNode) : result VALUE :=
  let array := [] in
  match
    match type node with
    | User => Some (rb_ary_push array (T_SYMBOL "user"))
    | Channel => Some (rb_ary_push array (T_SYMBOL "channel"))
    | Role => Some (rb_ary_push array (T_SYMBOL "role"))
    | Emoji => Some (rb_ary_push array (T_SYMBOL "emoji"))
    | Error => None
    end
  with
  | None => Ok Qnil
  | Some array =>
      s <- rb_str_new_cstr (id node) ;;
      Ok (T_ARRAY (rb_ary_push array s))
  end.

(** The loop of lines 227-232 over the nodes after [mention_node]; each is
    turned into its array and pushed unless it is [nil]. *)
Fixpoint rb_parse_mentions_loop (next : list MentionNode)
    (mention_ary : list VALUE) : result (list VALUE) :=
  match next with
  | [] => Ok mention_ary
  | mention_node :: next' =>
      mention <- rb_mention_to_rb_ary mention_node ;;
      rb_parse_mentions_loop next'
        (if negb (VALUE_is_nil mention) then rb_ary_push mention_ary mention
         else mention_ary)
  end.

(** [rb_ary_new()] of line 218 runs before the test of the type; the Array
    is Ruby's to collect and leaves no trace in the counter. *)
Definition rb_parse_mentions (usable : nat -> nat) (self str : VALUE) :
    mem VALUE :=
  let mention_ary := [] in
  match str with
  | T_STRING s =>
      mentions <~ find_mentions_mem usable (cstr s) ;;
      match mentions with
      | [] => mfault                      (* [mention_node->next] on NULL *)
      | _ :: next =>
          mention_ary <~ lift (rb_parse_mentions_loop next mention_ary) ;;
          _ <~ destroy_mentions mentions ;;
          mret (T_ARRAY mention_ary)
      end
  | _ => mret Qnil
  end.

(** ** Vocabulary of the statements *)

(** An ASCII decimal digit, ['0'] to ['9']. *)
Definition is_digit (c : ascii) : bool :=
  (48 <=? nat_of_ascii c) && (nat_of_ascii c <=? 57).

Definition all_digits (s : cstring) : bool := forallb is_digit s.

(** [c] does not occur in [s]. *)
Definition no_char (c : ascii) (s : cstring) : bool :=
  forallb (fun x => negb (Ascii.eqb x c)) s.

(** Text that can stand between the cursor and the ['<'] of a token: it holds
    no ['>'] and no NUL. *)
Definition junk_ok (s : cstring) : bool := no_char ">" s && no_char NUL s.

(** Text that can stand between the ['<'] and the ['>'] of a token. *)
Definition inner_ok (s : cstring) : bool :=
  no_char "<" s && no_char ">" s && no_char NUL s.

(** The token with interior [inner]. *)
Definition token (inner : cstring) : cstring := "<" :: inner ++ [">"].

(** The block that [new_mention] gets for the interior [inner] has a byte
    to spare for the terminator. *)
Definition fits (usable : nat -> nat) (inner : cstring) : bool :=
  length inner <? usable (length inner).

(** The cursor and the list after one call. *)
Definition shift_cursor (k : nat) (r : option nat * list MentionNode) :
    option nat * list MentionNode :=
  (option_map (Nat.add k) (fst r), snd r).

(** The scan of [buf] from its start, with the list [mentions] built so
    far. *)
Definition scan_with (usable : nat -> nat) (buf : cstring)
    (mentions : list MentionNode) : result (list MentionNode) :=
  find_mentions_loop usable (S (length buf)) buf 0 mentions.

(** The ways an iteration at the start of [buf] can go: no ['>'] is left;
    the first ['>'] has no ['<'] before it; the first ['>'] closes a token,
    whose interior fits its block or not. *)
Inductive scan_case (usable : nat -> nat) (buf : cstring) : Prop :=
| case_done :
    strchr buf 0 ">" = None -> scan_case usable buf
| case_unmatched (t rest : cstring) :
    buf = t ++ ">" :: rest -> junk_ok t = true -> no_char "<" t = true ->
    scan_case usable buf
| case_overflow (junk inner rest : cstring) :
    buf = junk ++ "<" :: inner ++ ">" :: rest ->
    junk_ok junk = true -> inner_ok inner = true ->
    fits usable inner = false ->
    scan_case usable buf
| case_token (junk inner rest : cstring) :
    buf = junk ++ "<" :: inner ++ ">" :: rest ->
    junk_ok junk = true -> inner_ok inner = true ->
    fits usable inner = true ->
    scan_case usable buf.

(** The record of kind [t] for the identifier [d], if [d] passes the digit
    validation. *)
Definition digit_record (t : MentionType) (d : cstring) : option MentionNode :=
  if all_digits d then Some {| id := Some d; type := t |} else None.

(** The classification table as the specification words it (section 4.1): the
    record of a token with interior [inner], if it has one.  It is compared
    with [new_mention] in [new_mention_token_node]. *)
Definition classify (inner : cstring) : option MentionNode :=
  match inner with
  | [] => None
  | c :: after =>
      if Ascii.eqb c "@" then
        match after with
        | [] => digit_record User []
        | c1 :: d =>
            if Ascii.eqb c1 "!" then digit_record User d
            else if Ascii.eqb c1 "&" then digit_record Role d
            else digit_record User after
        end
      else if Ascii.eqb c "#" then digit_record Channel after
      else if Ascii.eqb c "a" || Ascii.eqb c ":" then
        Some {| id := Some inner; type := Emoji |}
      else None
  end.

Definition option_list {A : Type} (o : option A) : list A :=
  match o with
  | Some a => [a]
  | None => []
  end.

(** A record as the scan appends them: a digit string under [User], [Role]
    or [Channel], or the interior of an emoji token under [Emoji]. *)
Definition record_ok (n : MentionNode) : bool :=
  match id n with
  | None => false
  | Some d =>
      match type n with
      | User | Role | Channel => all_digits d
      | Emoji =>
          match d with
          | c :: _ => (Ascii.eqb c "a" || Ascii.eqb c ":") && inner_ok d
          | [] => false
          end
      | Error => false
      end
  end.

(** A token together with the text between the cursor and its ['<']. *)
Record segment : Type := mkSegment {
  seg_junk : cstring;
  seg_inner : cstring
}.

(** The junk holds no ['>'] and no NUL, the interior no delimiter and no
    NUL. *)
Definition seg_ok (s : segment) : bool :=
  junk_ok (seg_junk s) && inner_ok (seg_inner s).

(** The interior fits the block that [new_mention] gets for it. *)
Definition seg_fits (usable : nat -> nat) (s : segment) : bool :=
  fits usable (seg_inner s).

Definition seg_text (s : segment) : cstring :=
  seg_junk s ++ token (seg_inner s).

(** The text made of the segments, in order. *)
Definition text_of (segs : list segment) : cstring := flat_map seg_text segs.

(** The records of the tokens of the segments by the classification table,
    in order; a token without a record leaves nothing. *)
Definition records_of (segs : list segment) : list MentionNode :=
  flat_map (fun s => option_list (classify (seg_inner s))) segs.

(** The window of one iteration: the bytes from the cursor to the ['>']
    that [strchr] found, both included. *)
Definition window (buf : cstring) (ptr rab : nat) : cstring :=
  firstn (S rab - ptr) (skipn ptr buf).

(** The plain prefix of each kind of token; an emoji token has none, its
    marker is part of the identifier. *)
Definition prefix_of (t : MentionType) : cstring :=
  match t with
  | User => ["@"]
  | Role => ["@"; "&"]
  | Channel => ["#"]
  | Emoji | Error => []
  end.

(** [d] starts with one of the markers that follow ['@'] in a two-character
    prefix. *)
Definition marked (d : cstring) : bool :=
  match d with
  | c :: _ => Ascii.eqb c "!" || Ascii.eqb c "&"
  | [] => false
  end.

(** The identifier of a node, empty for a NULL pointer. *)
Definition id_text (n : MentionNode) : cstring :=
  match id n with
  | Some s => s
  | None => []
  end.

(** The token that stands for a record: the prefix of its kind, then its
    identifier, between ['<'] and ['>']. *)
Definition serialize (n : MentionNode) : cstring :=
  token (prefix_of (type n) ++ id_text n).

(** The Symbol that stands for a kind. *)
Definition kind_name (t : MentionType) : string :=
  match t with
  | User => "user"
  | Role => "role"
  | Channel => "channel"
  | Emoji => "emoji"
  | Error => ""
  end.

(** The pair the binding returns for a record. *)
Definition rb_pair (n : MentionNode) : VALUE :=
  T_ARRAY [T_SYMBOL (kind_name (type n));
           T_STRING (string_of_list_ascii (id_text n))].

(** A node that [add_mention] links into the list. *)
Definition accepted (n : MentionNode) : bool :=
  negb (MentionType_eqb (type n) Error)
  && match id n with Some _ => true | None => false end.

(** A channel token that fails the digit validation. *)
Definition rejected_channel (inner : cstring) : bool :=
  match inner with
  | c :: d => Ascii.eqb c "#" && negb (all_digits d)
  | [] => false
  end.

(** The blocks a list holds: one per node, one per identifier. *)
Definition blocks_of (mentions : list MentionNode) : Z :=
  fold_right
    (fun n acc =>
       (acc + 1 + match id n with Some _ => 1 | None => 0 end)%Z)
    0%Z mentions.

(** What [destroy_mentions] leaves allocated: the identifier of the last
    node, when that node has the type [Error]. *)
Definition kept_by_destroy (mentions : list MentionNode) : Z :=
  match last mentions null_mention with
  | {| id := Some _; type := Error |} => 1%Z
  | _ => 0%Z
  end.

(** The blocks the token with interior [inner] leaves allocated: a node and
    an identifier for a record, the identifier alone for a channel token
    that fails the validation. *)
Definition token_blocks (inner : cstring) : Z :=
  (2 * Z.of_nat (length (option_list (classify inner)))
   + if rejected_channel inner then 1 else 0)%Z.

(** The scan of [buf] from its start, with its allocations. *)
Definition scan_with_mem (usable : nat -> nat) (buf : cstring)
    (mentions : list MentionNode) : mem (list MentionNode) :=
  find_mentions_loop_mem usable (S (length buf)) buf 0 mentions.
(** * Characters and digit strings *)

Lemma digit_test (c : ascii) :
  ((char_to_int c >? char_to_int "9") || (char_to_int c <? char_to_int "0"))%Z
  = negb (is_digit c).
Proof.
  destruct c as [[] [] [] [] [] [] [] []]; reflexivity.
Qed.

(** The test of [ensure_int_str] does not depend on the signedness of
    [char]. *)
Lemma digit_test_unsigned (c : ascii) :
  ((uchar_to_int c >? uchar_to_int "9")
   || (uchar_to_int c <? uchar_to_int "0"))%Z
  = ((char_to_int c >? char_to_int "9")
     || (char_to_int c <? char_to_int "0"))%Z.
Proof.
  destruct c as [[] [] [] [] [] [] [] []]; reflexivity.
Qed.

Lemma is_digit_not_special (c : ascii) :
  is_digit c = true ->
  Ascii.eqb c NUL = false /\ Ascii.eqb c "<" = false
  /\ Ascii.eqb c ">" = false /\ Ascii.eqb c "!" = false
  /\ Ascii.eqb c "&" = false.
Proof.
  destruct c as [[] [] [] [] [] [] [] []]; cbv; intuition congruence.
Qed.

Lemma no_char_app (c : ascii) (s t : cstring) :
  no_char c (s ++ t) = no_char c s && no_char c t.
Proof. apply forallb_app. Qed.

Lemma no_char_cons (c x : ascii) (s : cstring) :
  no_char c (x :: s) = negb (Ascii.eqb x c) && no_char c s.
Proof. reflexivity. Qed.

Lemma no_char_In (c : ascii) (s : cstring) :
  no_char c s = true <-> ~ In c s.
Proof.
  unfold no_char. rewrite forallb_forall. split.
  - intros H Hin. specialize (H c Hin). rewrite Ascii.eqb_refl in H.
    discriminate.
  - intros H x Hx. destruct (Ascii.eqb_spec x c) as [->|]; [tauto | reflexivity].
Qed.

Lemma strcpy_no_NUL (s : cstring) : no_char NUL s = true -> strcpy s = s.
Proof.
  induction s as [|c s IH]; simpl; [reflexivity|].
  intros H. apply andb_true_iff in H as [Hc Hs].
  apply negb_true_iff in Hc. rewrite Hc. f_equal. auto.
Qed.

Lemma strcpy_app_NUL_free (s t : cstring) :
  no_char NUL s = true -> strcpy (s ++ t) = s ++ strcpy t.
Proof.
  induction s as [|c s IH]; simpl; [reflexivity|].
  intros H. apply andb_true_iff in H as [Hc Hs].
  apply negb_true_iff in Hc. rewrite Hc. f_equal. auto.
Qed.

Lemma all_digits_no_char (s : cstring) :
  all_digits s = true ->
  no_char NUL s = true /\ no_char "<" s = true /\ no_char ">" s = true.
Proof.
  induction s as [|c s IH]; simpl; [auto|].
  intros H. apply andb_true_iff in H as [Hc Hs].
  destruct (is_digit_not_special c Hc) as (-> & -> & -> & _).
  simpl. auto.
Qed.

Lemma all_digits_inner_ok (s : cstring) :
  all_digits s = true -> inner_ok s = true.
Proof.
  intros H. destruct (all_digits_no_char s H) as (H0 & H1 & H2).
  unfold inner_ok. now rewrite H0, H1, H2.
Qed.

Lemma ensure_int_str_loop_spec (s : cstring) (b : bool) :
  ensure_int_str_loop s b = b && all_digits (strcpy s).
Proof.
  revert b. induction s as [|c s IH]; intros b; simpl.
  - now rewrite andb_true_r.
  - destruct (Ascii.eqb c NUL); simpl.
    + now rewrite andb_true_r.
    + rewrite IH, digit_test.
      destruct (is_digit c), b; reflexivity.
Qed.

Lemma ensure_int_str_spec (s : cstring) :
  ensure_int_str s = all_digits (strcpy s).
Proof. apply ensure_int_str_loop_spec. Qed.

(** * strchr *)

Lemma strchr_loop_offset (s : cstring) (k p : nat) (c : ascii) :
  strchr_loop s (k + p) c = option_map (Nat.add k) (strchr_loop s p c).
Proof.
  revert p. induction s as [|x s IH]; intros p; simpl.
  - destruct (Ascii.eqb c NUL); reflexivity.
  - destruct (Ascii.eqb x c); [reflexivity|].
    destruct (Ascii.eqb x NUL); [reflexivity|].
    rewrite <- IH. f_equal. lia.
Qed.

(** The first ['>'] after text free of ['>'] and NUL is found. *)
Lemma strchr_loop_found (t rest : cstring) (p : nat) :
  junk_ok t = true ->
  strchr_loop (t ++ ">" :: rest) p ">" = Some (p + length t).
Proof.
  revert p. induction t as [|x t IH]; intros p H; simpl.
  - f_equal. lia.
  - unfold junk_ok in H. rewrite !no_char_cons in H.
    apply andb_true_iff in H as [H1 H2].
    apply andb_true_iff in H1 as [Hx1 H1].
    apply andb_true_iff in H2 as [Hx2 H2].
    apply negb_true_iff in Hx1, Hx2. rewrite Hx1, Hx2.
    rewrite IH; [f_equal; lia|].
    unfold junk_ok. now rewrite H1, H2.
Qed.

(** Conversely a hit of [strchr] splits the text at its first ['>']. *)
Lemma strchr_loop_Some (s : cstring) (p r : nat) :
  strchr_loop s p ">" = Some r ->
  exists t rest, s = t ++ ">" :: rest /\ junk_ok t = true
                 /\ r = p + length t.
Proof.
  revert p. induction s as [|x s IH]; intros p; simpl; [discriminate|].
  destruct (Ascii.eqb_spec x ">") as [->|Hx].
  - intros [= <-]. exists [], s. repeat split. simpl. lia.
  - destruct (Ascii.eqb_spec x NUL) as [->|Hn]; [discriminate|].
    intros H. destruct (IH _ H) as (t & rest & -> & Ht & ->).
    exists (x :: t), rest. repeat split; [|simpl; lia].
    unfold junk_ok in *. rewrite !no_char_cons.
    apply andb_true_iff in Ht as [-> ->].
    apply Ascii.eqb_neq in Hx, Hn. now rewrite Hx, Hn.
Qed.

(** A miss of [strchr] leaves no ['>'] in the C string. *)
Lemma strchr_loop_None (s : cstring) (p : nat) :
  strchr_loop s p ">" = None -> no_char ">" (strcpy s) = true.
Proof.
  revert p. induction s as [|x s IH]; intros p; simpl; [reflexivity|].
  destruct (Ascii.eqb x ">") eqn:Hx; [discriminate|].
  destruct (Ascii.eqb x NUL); [reflexivity|].
  intros H. simpl. rewrite Hx. simpl. eauto.
Qed.

Lemma strchr_loop_no_rab (s : cstring) (p : nat) :
  no_char ">" s = true -> strchr_loop s p ">" = None.
Proof.
  revert p. induction s as [|x s IH]; intros p; simpl; [reflexivity|].
  intros H. apply andb_true_iff in H as [Hx Hs].
  apply negb_true_iff in Hx. rewrite Hx.
  destruct (Ascii.eqb x NUL); auto.
Qed.

Lemma strchr_shift (pre buf : cstring) (p : nat) (c : ascii) :
  strchr (pre ++ buf) (length pre + p) c
  = option_map (Nat.add (length pre)) (strchr buf p c).
Proof.
  unfold strchr. rewrite skipn_app, Nat.add_comm, skipn_all2 by lia.
  replace (p + length pre - length pre) with p by lia.
  simpl. rewrite Nat.add_comm. apply strchr_loop_offset.
Qed.

(** * find_closest_lab *)

Lemma deref_app_r (pre buf : cstring) (p : nat) :
  deref (pre ++ buf) (length pre + p) = deref buf p.
Proof.
  unfold deref. rewrite app_nth2 by lia. f_equal. lia.
Qed.

Lemma find_closest_lab_loop_shift (pre buf : cstring) (src p : nat) :
  find_closest_lab_loop (pre ++ buf) (length pre + src) (length pre + p)
  = length pre + find_closest_lab_loop buf src p.
Proof.
  induction p as [|p IH].
  - rewrite Nat.add_0_r. simpl.
    destruct (length pre) as [|k] eqn:E; [reflexivity|].
    simpl. replace (S (k + src) <? S k) with false
      by (symmetry; apply Nat.ltb_ge; lia).
    now rewrite andb_false_r.
  - rewrite Nat.add_succ_r. simpl.
    rewrite <- Nat.add_succ_r, deref_app_r, IH.
    replace (length pre + src <? length pre + S p) with (src <? S p).
    + destruct (negb (Ascii.eqb (deref buf (S p)) "<") && (src <? S p));
        [reflexivity | lia].
    + destruct (Nat.ltb_spec src (S p));
        symmetry; [apply Nat.ltb_lt | apply Nat.ltb_ge]; lia.
Qed.

Lemma find_closest_lab_shift (pre buf : cstring) (src rab : nat) :
  find_closest_lab (pre ++ buf) (length pre + src) (length pre + rab)
  = option_map (Nat.add (length pre)) (find_closest_lab buf src rab).
Proof.
  unfold find_closest_lab. rewrite find_closest_lab_loop_shift, deref_app_r.
  replace (length pre + find_closest_lab_loop buf src rab =? length pre + src)
    with (find_closest_lab_loop buf src rab =? src).
  - destruct ((find_closest_lab_loop buf src rab =? src) && _); reflexivity.
  - destruct (Nat.eqb_spec (find_closest_lab_loop buf src rab) src);
      symmetry; [apply Nat.eqb_eq | apply Nat.eqb_neq]; lia.
Qed.

(** The backward walk passes over bytes other than ['<'] ... *)
Lemma find_closest_lab_loop_skip (buf : cstring) (src p n : nat) :
  src <= p ->
  (forall i, p < i <= p + n -> Ascii.eqb (deref buf i) "<" = false) ->
  find_closest_lab_loop buf src (p + n) = find_closest_lab_loop buf src p.
Proof.
  intros Hsrc. induction n as [|n IH]; intros H.
  - now rewrite Nat.add_0_r.
  - rewrite Nat.add_succ_r. simpl.
    rewrite H by lia. simpl.
    replace (src <? S (p + n)) with true
      by (symmetry; apply Nat.ltb_lt; lia).
    apply IH. intros i Hi. apply H. lia.
Qed.

(** ... stops on a ['<'] ... *)
Lemma find_closest_lab_loop_stop (buf : cstring) (src p : nat) :
  Ascii.eqb (deref buf p) "<" = true ->
  find_closest_lab_loop buf src p = p.
Proof.
  intros H. destruct p; simpl; [reflexivity|]. now rewrite H.
Qed.

(** ... and stops at the cursor. *)
Lemma find_closest_lab_loop_src (buf : cstring) (src : nat) :
  find_closest_lab_loop buf src src = src.
Proof.
  destruct src; simpl; [reflexivity|].
  now rewrite Nat.ltb_irrefl, andb_false_r.
Qed.

Lemma deref_app_l (s t : cstring) (i : nat) :
  i < length s -> deref (s ++ t) i = deref s i.
Proof. intros H. unfold deref. now rewrite app_nth1. Qed.

Lemma deref_middle (s t : cstring) (c : ascii) :
  deref (s ++ c :: t) (length s) = c.
Proof. unfold deref. apply nth_middle. Qed.

Lemma no_char_deref (c : ascii) (s : cstring) (i : nat) :
  no_char c s = true -> i < length s -> Ascii.eqb (deref s i) c = false.
Proof.
  intros H Hi. apply negb_true_iff.
  unfold no_char in H. rewrite forallb_forall in H.
  apply (H (deref s i)). apply nth_In. exact Hi.
Qed.

(** With no ['<'] between the cursor and the ['>'], the walk returns NULL. *)
Lemma find_closest_lab_none (t rest : cstring) :
  no_char "<" t = true ->
  find_closest_lab (t ++ ">" :: rest) 0 (length t) = None.
Proof.
  intros Ht. unfold find_closest_lab.
  assert (Hwalk : find_closest_lab_loop (t ++ ">" :: rest) 0 (length t) = 0).
  { rewrite (find_closest_lab_loop_skip _ 0 0 (length t)); [reflexivity|lia|].
    intros i Hi. destruct (Nat.eq_dec i (length t)) as [->|Hne].
    - now rewrite deref_middle.
    - rewrite deref_app_l by lia. apply no_char_deref; [assumption|lia]. }
  rewrite Hwalk. simpl. destruct t as [|x t]; simpl.
  - reflexivity.
  - simpl in Ht. apply andb_true_iff in Ht as [Hx _].
    unfold deref. simpl. now rewrite Hx.
Qed.

(** With a ['<'] in the window, the walk returns the last one. *)
Lemma find_closest_lab_some (junk inner rest : cstring) :
  no_char "<" inner = true ->
  find_closest_lab (junk ++ "<" :: inner ++ ">" :: rest) 0
    (length junk + S (length inner))
  = Some (length junk).
Proof.
  intros Hi. unfold find_closest_lab.
  assert (Hwalk : find_closest_lab_loop (junk ++ "<" :: inner ++ ">" :: rest)
                    0 (length junk + S (length inner)) = length junk).
  { rewrite find_closest_lab_loop_skip.
    - apply find_closest_lab_loop_stop. now rewrite deref_middle.
    - lia.
    - intros i Hr.
      replace i with (length junk + S (i - S (length junk))) by lia.
      rewrite deref_app_r. unfold deref. simpl.
      destruct (Nat.eq_dec (i - S (length junk)) (length inner)) as [->|Hne].
      + now rewrite nth_middle.
      + rewrite app_nth1 by lia. apply no_char_deref; [assumption|lia]. }
  rewrite Hwalk, deref_middle. simpl. now rewrite andb_false_r.
Qed.


Section Scan.

Variable usable : nat -> nat.

Lemma app_not_nil (A : Type) (l l' : list A) : l <> [] -> l ++ l' <> [].
Proof. destruct l; [congruence | discriminate]. Qed.

(** * new_mention and add_mention *)

(** The interior copied out of the token at [lab], [rab]. *)
Lemma inner_ptr_token (junk inner rest : cstring) :
  strncpy (skipn (length junk + 1) (junk ++ "<" :: inner ++ ">" :: rest))
    (length junk + S (length inner) - length junk - 1)
  = strcpy inner.
Proof.
  unfold strncpy.
  rewrite skipn_app, skipn_all2 by lia.
  replace (length junk + 1 - length junk) with 1 by lia.
  replace (length junk + S (length inner) - length junk - 1)
    with (length inner) by lia.
  simpl. rewrite firstn_app, firstn_all, Nat.sub_diag. simpl.
  now rewrite app_nil_r.
Qed.

(** [new_mention] on a token inside a text is [new_mention] on the token
    alone. *)
Lemma new_mention_token (junk inner rest : cstring) (m : MentionNode) :
  new_mention usable (junk ++ "<" :: inner ++ ">" :: rest) m
    (Some (length junk)) (length junk + S (length inner))
  = new_mention usable (token inner) m (Some 0) (S (length inner)).
Proof.
  unfold new_mention.
  replace (length junk + S (length inner) <=? length junk) with false
    by (symmetry; apply Nat.leb_gt; lia).
  rewrite inner_ptr_token.
  pose proof (inner_ptr_token [] inner []) as E. simpl in E.
  replace (length junk + S (length inner) - length junk - 1)
    with (length inner) by lia.
  unfold token. simpl. rewrite Nat.sub_0_r in E |- *. now rewrite E.
Qed.

(** An interior that fills its block: the terminator is stored past it. *)
Lemma new_mention_overflow (inner : cstring) (m : MentionNode) :
  fits usable inner = false ->
  new_mention usable (token inner) m (Some 0) (S (length inner)) = Fault.
Proof.
  unfold fits, new_mention. intros H. cbv beta iota.
  change (S (length inner) <=? 0) with false. cbv beta iota.
  replace (S (length inner) - 0 - 1) with (length inner) by lia.
  apply Nat.ltb_ge in H. apply Nat.leb_le in H. now rewrite H.
Qed.

(** The node [new_mention] makes of a token that fits its block: the record
    of the table, or an [Error] node, which holds an identifier when the
    token is a channel token that fails the validation. *)
Lemma new_mention_token_node (inner : cstring) :
  no_char NUL inner = true -> fits usable inner = true ->
  new_mention usable (token inner) null_mention (Some 0) (S (length inner))
  = Ok match classify inner with
       | Some n => n
       | None =>
           {| id := if rejected_channel inner then Some (tl inner) else None;
              type := Error |}
       end.
Proof.
  intros Hn Hfit.
  assert (Hin : strncpy (skipn (0 + 1) (token inner))
                  (S (length inner) - 0 - 1) = inner).
  { rewrite <- (strcpy_no_NUL inner Hn) at 3.
    exact (inner_ptr_token [] inner []). }
  unfold new_mention. cbv beta iota.
  change (S (length inner) <=? 0) with false. cbv beta iota.
  rewrite Hin.
  replace (S (length inner) - 0 - 1) with (length inner) by lia.
  replace (usable (length inner) <=? length inner) with false.
  2:{ symmetry. apply Nat.leb_gt. unfold fits in Hfit.
      now apply Nat.ltb_lt in Hfit. }
  cbv zeta. clear Hin Hfit.
  destruct inner as [|c after]; [reflexivity|].
  unfold deref, classify, rejected_channel. simpl nth.
  simpl in Hn. apply andb_true_iff in Hn as [Hc Hn].
  destruct (Ascii.eqb c "@") eqn:E0.
  - assert (E1 : Ascii.eqb c "#" = false).
    { apply Ascii.eqb_eq in E0. now subst c. }
    rewrite E1. simpl andb.
    destruct after as [|c1 d]; [reflexivity|].
    simpl nth. simpl in Hn. apply andb_true_iff in Hn as [Hc1 Hd].
    apply negb_true_iff in Hc1.
    destruct (Ascii.eqb c1 "!") eqn:E2;
      [|destruct (Ascii.eqb c1 "&") eqn:E3];
      simpl skipn; rewrite ensure_int_str_spec;
      unfold digit_record.
    + rewrite !(strcpy_no_NUL d) by exact Hd.
      destruct (all_digits d); reflexivity.
    + rewrite !(strcpy_no_NUL d) by exact Hd.
      destruct (all_digits d); reflexivity.
    + rewrite !(strcpy_no_NUL (c1 :: d))
        by (simpl; now rewrite Hc1, Hd).
      destruct (all_digits (c1 :: d)); reflexivity.
  - destruct (Ascii.eqb c "#") eqn:E1.
    + simpl skipn. rewrite ensure_int_str_spec.
      rewrite !(strcpy_no_NUL after) by exact Hn.
      unfold digit_record. destruct (all_digits after); reflexivity.
    + destruct (Ascii.eqb c "a" || Ascii.eqb c ":"); reflexivity.
Qed.

Lemma classify_accepted (inner : cstring) (n : MentionNode) :
  classify inner = Some n -> accepted n = true.
Proof.
  unfold classify, digit_record.
  destruct inner as [|c after]; [discriminate|].
  destruct (Ascii.eqb c "@").
  - destruct after as [|c1 d].
    + simpl. now intros [= <-].
    + destruct (Ascii.eqb c1 "!"); [|destruct (Ascii.eqb c1 "&")].
      * destruct (all_digits d); [|discriminate]. now intros [= <-].
      * destruct (all_digits d); [|discriminate]. now intros [= <-].
      * destruct (all_digits (c1 :: d)); [|discriminate]. now intros [= <-].
  - destruct (Ascii.eqb c "#").
    + destruct (all_digits after); [|discriminate]. now intros [= <-].
    + destruct (Ascii.eqb c "a" || Ascii.eqb c ":"); [|discriminate].
      now intros [= <-].
Qed.

Lemma classify_rejected_channel (inner : cstring) :
  rejected_channel inner = true -> classify inner = None.
Proof.
  unfold rejected_channel, classify, digit_record.
  destruct inner as [|c d]; [discriminate|].
  intros H. apply andb_true_iff in H as [Hc Hd].
  apply Ascii.eqb_eq in Hc. subst c. simpl.
  apply negb_true_iff in Hd. now rewrite Hd.
Qed.

Lemma add_mention_cons (buf : cstring) (m : MentionNode)
    (ms : list MentionNode) (lab : option nat) (rab : nat) :
  add_mention usable buf (m :: ms) lab rab
  = n <- new_mention usable buf null_mention lab rab ;;
    if accepted n then Ok ((m :: ms) ++ [n]) else Ok (m :: ms).
Proof. reflexivity. Qed.

Lemma add_mention_app (buf : cstring) (a b : list MentionNode)
    (lab : option nat) (rab : nat) :
  b <> [] ->
  add_mention usable buf (a ++ b) lab rab
  = rmap (app a) (add_mention usable buf b lab rab).
Proof.
  intros Hb. destruct b as [|m b]; [congruence|].
  destruct a as [|x a].
  - simpl app at 1. unfold rmap.
    destruct (add_mention usable buf (m :: b) lab rab); reflexivity.
  - change ((x :: a) ++ m :: b) with (x :: (a ++ m :: b)).
    rewrite !add_mention_cons. unfold rmap.
    destruct (new_mention usable buf null_mention lab rab) as [n| |]; simpl;
      auto.
    destruct (accepted n); simpl; [|reflexivity].
    now rewrite <- app_assoc.
Qed.

(** A token that fits its block: its record, if it has one, is appended. *)
Lemma add_mention_token (junk inner rest : cstring)
    (mentions : list MentionNode) :
  mentions <> [] ->
  no_char NUL inner = true -> fits usable inner = true ->
  add_mention usable (junk ++ "<" :: inner ++ ">" :: rest) mentions
    (Some (length junk)) (length junk + S (length inner))
  = Ok (mentions ++ option_list (classify inner)).
Proof.
  intros Hm Hn Hfit. destruct mentions as [|m ms]; [congruence|].
  rewrite add_mention_cons, new_mention_token.
  rewrite new_mention_token_node by assumption. simpl.
  destruct (classify inner) as [n|] eqn:E.
  - now rewrite (classify_accepted inner n E).
  - unfold accepted. simpl. now rewrite app_nil_r.
Qed.

(** A token that fills its block: undefined behaviour. *)
Lemma add_mention_overflow (junk inner rest : cstring)
    (mentions : list MentionNode) :
  fits usable inner = false ->
  add_mention usable (junk ++ "<" :: inner ++ ">" :: rest) mentions
    (Some (length junk)) (length junk + S (length inner))
  = Fault.
Proof.
  intros Hfit. destruct mentions as [|m ms]; [reflexivity|].
  rewrite add_mention_cons, new_mention_token.
  now rewrite new_mention_overflow.
Qed.

Lemma new_mention_shift (pre buf : cstring) (m : MentionNode)
    (lab : option nat) (rab : nat) :
  new_mention usable (pre ++ buf) m (option_map (Nat.add (length pre)) lab)
    (length pre + rab)
  = new_mention usable buf m lab rab.
Proof.
  destruct lab as [lab|]; [|reflexivity]. unfold new_mention. simpl.
  replace (length pre + rab <=? length pre + lab) with (rab <=? lab).
  2:{ destruct (Nat.leb_spec rab lab);
        symmetry; [apply Nat.leb_le | apply Nat.leb_gt]; lia. }
  replace (length pre + lab + 1) with (length pre + (lab + 1)) by lia.
  rewrite skipn_app, skipn_all2 by lia.
  replace (length pre + (lab + 1) - length pre) with (lab + 1) by lia.
  replace (length pre + rab - (length pre + lab) - 1) with (rab - lab - 1)
    by lia.
  reflexivity.
Qed.

Lemma add_mention_shift (pre buf : cstring) (mentions : list MentionNode)
    (lab : option nat) (rab : nat) :
  add_mention usable (pre ++ buf) mentions
    (option_map (Nat.add (length pre)) lab) (length pre + rab)
  = add_mention usable buf mentions lab rab.
Proof. unfold add_mention. now rewrite new_mention_shift. Qed.

(** Only the loop of [find_mentions] consumes fuel. *)
Lemma new_mention_no_fuel (buf : cstring) (m : MentionNode)
    (lab : option nat) (rab : nat) :
  new_mention usable buf m lab rab <> OutOfFuel.
Proof.
  unfold new_mention. destruct lab as [lab|]; [|discriminate].
  destruct (rab <=? lab); [discriminate|].
  destruct (usable _ <=? _); [discriminate|].
  cbv zeta.
  destruct (Ascii.eqb _ "@");
    [destruct (Ascii.eqb _ "!"); [|destruct (Ascii.eqb _ "&")];
     destruct (ensure_int_str _); discriminate|].
  destruct (Ascii.eqb _ "#"); [discriminate|].
  destruct (_ || _); discriminate.
Qed.

Lemma add_mention_no_fuel (buf : cstring) (mentions : list MentionNode)
    (lab : option nat) (rab : nat) :
  add_mention usable buf mentions lab rab <> OutOfFuel.
Proof.
  destruct mentions as [|m ms]; [discriminate|].
  rewrite add_mention_cons.
  destruct (new_mention usable buf null_mention lab rab) as [n| |] eqn:E;
    simpl.
  - destruct (accepted n); discriminate.
  - discriminate.
  - now apply new_mention_no_fuel in E.
Qed.

(** What [add_mention] returns is the list it was given, with at most one
    node added at its end. *)
Lemma add_mention_appends (buf : cstring) (mentions mentions' : list MentionNode)
    (lab : option nat) (rab : nat) :
  add_mention usable buf mentions lab rab = Ok mentions' ->
  mentions' = mentions \/ exists node, mentions' = mentions ++ [node].
Proof.
  destruct mentions as [|m ms]; [discriminate|].
  rewrite add_mention_cons.
  destruct (new_mention usable buf null_mention lab rab) as [n| |]; simpl;
    try discriminate.
  destruct (accepted n); intros [= <-]; [right; now exists n | now left].
Qed.

(** * find_mention *)

Lemma find_mention_shift (pre buf : cstring) (src : nat)
    (mentions : list MentionNode) :
  find_mention usable (pre ++ buf) (length pre + src) mentions
  = rmap (shift_cursor (length pre)) (find_mention usable buf src mentions).
Proof.
  unfold find_mention. rewrite strchr_shift.
  destruct (strchr buf src ">") as [rab|]; simpl; [|reflexivity].
  rewrite find_closest_lab_shift, add_mention_shift.
  destruct (add_mention usable buf mentions _ rab); simpl; try reflexivity.
  unfold shift_cursor. simpl. now rewrite Nat.add_succ_r.
Qed.

(** The list a call is given matters only as what the new node is appended
    to. *)
Lemma find_mention_acc (buf : cstring) (src : nat)
    (acc : list MentionNode) :
  acc <> [] ->
  find_mention usable buf src acc
  = rmap (fun r => (fst r, acc ++ tl (snd r)))
      (find_mention usable buf src [null_mention]).
Proof.
  intros Hacc. destruct acc as [|m ms]; [congruence|].
  unfold find_mention.
  destruct (strchr buf src ">") as [rab|];
    [|simpl; now rewrite app_nil_r].
  cbv zeta. rewrite !add_mention_cons. unfold rmap.
  destruct (new_mention usable buf null_mention _ rab) as [n| |]; simpl;
    try reflexivity.
  destruct (accepted n); simpl; [reflexivity | now rewrite app_nil_r].
Qed.

(** Each call that returns a cursor has moved it forward, inside the
    buffer. *)
Lemma find_mention_advances (buf : cstring) (src ptr' : nat)
    (mentions mentions' : list MentionNode) :
  find_mention usable buf src mentions = Ok (Some ptr', mentions') ->
  src < ptr' <= length buf.
Proof.
  unfold find_mention, strchr.
  destruct (strchr_loop (skipn src buf) src ">") as [rab|] eqn:E;
    [|discriminate].
  apply strchr_loop_Some in E as (t & rest & Hs & _ & ->).
  destruct (add_mention usable buf mentions _ _); simpl; try discriminate.
  intros [= <- <-].
  assert (Hl : length (skipn src buf) = length (t ++ ">" :: rest))
    by now rewrite Hs.
  rewrite length_skipn, length_app in Hl. simpl in Hl. lia.
Qed.

Lemma find_mention_no_fuel (buf : cstring) (src : nat)
    (mentions : list MentionNode) :
  find_mention usable buf src mentions <> OutOfFuel.
Proof.
  unfold find_mention. destruct (strchr buf src ">") as [rab|];
    [|discriminate].
  destruct (add_mention usable buf mentions _ rab) eqn:E; simpl;
    try discriminate.
  now apply add_mention_no_fuel in E.
Qed.

(** * The loop of find_mentions *)

(** One more iteration than bytes remain after the cursor is enough fuel. *)
Lemma find_mentions_loop_fuel (fuel : nat) (buf : cstring) (ptr : nat)
    (mentions : list MentionNode) :
  ptr <= length buf -> length buf < fuel + ptr ->
  find_mentions_loop usable fuel buf ptr mentions <> OutOfFuel.
Proof.
  revert ptr mentions. induction fuel as [|fuel IH]; intros ptr mentions Hp H.
  - simpl in H. lia.
  - simpl.
    destruct (find_mention usable buf ptr mentions) as [[[p|] m]| |] eqn:E;
      simpl; try discriminate.
    + apply find_mention_advances in E. apply IH; lia.
    + now apply find_mention_no_fuel in E.
Qed.

(** More fuel than needed changes nothing. *)
Lemma find_mentions_loop_more_fuel (fuel fuel' : nat) (buf : cstring)
    (ptr : nat) (mentions : list MentionNode) :
  ptr <= length buf ->
  length buf < fuel + ptr -> length buf < fuel' + ptr ->
  find_mentions_loop usable fuel buf ptr mentions
  = find_mentions_loop usable fuel' buf ptr mentions.
Proof.
  revert fuel' ptr mentions.
  induction fuel as [|fuel IH]; intros fuel' ptr mentions Hp H H'.
  - simpl in H. lia.
  - destruct fuel' as [|fuel']; [simpl in H'; lia|].
    simpl.
    destruct (find_mention usable buf ptr mentions) as [[[p|] m]| |] eqn:E;
      simpl; try reflexivity.
    apply find_mention_advances in E. apply IH; lia.
Qed.

Lemma find_mentions_loop_shift (fuel : nat) (pre buf : cstring) (ptr : nat)
    (mentions : list MentionNode) :
  find_mentions_loop usable fuel (pre ++ buf) (length pre + ptr) mentions
  = find_mentions_loop usable fuel buf ptr mentions.
Proof.
  revert ptr mentions. induction fuel as [|fuel IH]; intros ptr mentions;
    simpl; [reflexivity|].
  rewrite find_mention_shift.
  destruct (find_mention usable buf ptr mentions) as [[[p|] m]| |]; simpl;
    try reflexivity.
  apply IH.
Qed.


(** The list the loop is given matters only as what the records are
    appended to. *)
Lemma find_mentions_loop_acc (fuel : nat) (buf : cstring) (ptr : nat)
    (acc : list MentionNode) :
  acc <> [] ->
  find_mentions_loop usable fuel buf ptr acc
  = rmap (fun m => acc ++ tl m)
      (find_mentions_loop usable fuel buf ptr [null_mention]).
Proof.
  revert ptr acc. induction fuel as [|fuel IH]; intros ptr acc Hacc;
    [reflexivity|].
  simpl. rewrite (find_mention_acc buf ptr acc Hacc). unfold rmap.
  destruct (find_mention usable buf ptr [null_mention])
    as [[[p|] m]| |] eqn:E; simpl; try reflexivity.
  assert (Hm : m <> []).
  { unfold find_mention in E. destruct (strchr buf ptr ">") as [rab|];
      [|discriminate].
    destruct (add_mention usable buf [null_mention] _ rab) as [m'| |] eqn:Ea;
      simpl in E; try discriminate.
    injection E as _ <-.
    apply add_mention_appends in Ea as [->|(n & ->)]; discriminate. }
  destruct m as [|x m]; [congruence|]. simpl tl.
  rewrite (IH p (acc ++ m)) by now apply app_not_nil.
  rewrite (IH p (x :: m)) by discriminate.
  unfold rmap.
  destruct (find_mentions_loop usable fuel buf p [null_mention]); simpl;
    try reflexivity.
  now rewrite <- app_assoc.
Qed.

Lemma find_mentions_loop_step (fuel : nat) (buf : cstring) (ptr ptr' : nat)
    (mentions mentions' : list MentionNode) :
  find_mention usable buf ptr mentions = Ok (Some ptr', mentions') ->
  find_mentions_loop usable (S fuel) buf ptr mentions
  = find_mentions_loop usable fuel buf ptr' mentions'.
Proof. intros H. simpl. now rewrite H. Qed.

Lemma find_mentions_scan_with (src : cstring) :
  find_mentions usable src = scan_with usable src [null_mention].
Proof. reflexivity. Qed.

Lemma scan_with_acc (buf : cstring) (acc : list MentionNode) :
  acc <> [] ->
  scan_with usable buf acc
  = rmap (fun m => acc ++ tl m) (find_mentions usable buf).
Proof. apply find_mentions_loop_acc. Qed.

(** No ['>'] before the terminator: the scan is over. *)
Lemma scan_with_done (buf : cstring) (mentions : list MentionNode) :
  strchr buf 0 ">" = None -> scan_with usable buf mentions = Ok mentions.
Proof.
  intros H. unfold scan_with. simpl. unfold find_mention. now rewrite H.
Qed.

(** A ['>'] with no ['<'] between the cursor and it: NULL reaches
    [new_mention]. *)
Lemma scan_with_unmatched (t rest : cstring) (mentions : list MentionNode) :
  junk_ok t = true -> no_char "<" t = true ->
  scan_with usable (t ++ ">" :: rest) mentions = Fault.
Proof.
  intros Ht Hl. unfold scan_with. simpl. unfold find_mention, strchr.
  simpl skipn. rewrite strchr_loop_found by assumption. simpl.
  rewrite find_closest_lab_none by assumption.
  destruct mentions; reflexivity.
Qed.

Lemma find_mention_token_step (junk inner rest : cstring)
    (mentions : list MentionNode) :
  junk_ok junk = true -> inner_ok inner = true ->
  find_mention usable (junk ++ "<" :: inner ++ ">" :: rest) 0 mentions
  = mentions' <-
      add_mention usable (junk ++ "<" :: inner ++ ">" :: rest) mentions
        (Some (length junk)) (length junk + S (length inner)) ;;
    Ok (Some (S (length junk + S (length inner))), mentions').
Proof.
  intros Hj Hi. unfold inner_ok in Hi.
  apply andb_true_iff in Hi as [Hi Hn].
  apply andb_true_iff in Hi as [Hl Hr].
  unfold find_mention, strchr.
  change (skipn 0 (junk ++ "<" :: inner ++ ">" :: rest))
    with (junk ++ "<" :: inner ++ ">" :: rest).
  replace (junk ++ "<" :: inner ++ ">" :: rest)
    with ((junk ++ "<" :: inner) ++ ">" :: rest) at 1
    by now rewrite <- app_assoc.
  rewrite strchr_loop_found.
  - rewrite length_app. simpl length. simpl Nat.add at 1.
    now rewrite find_closest_lab_some by assumption.
  - unfold junk_ok in *. rewrite !no_char_app, !no_char_cons.
    apply andb_true_iff in Hj as [-> ->]. now rewrite Hr, Hn.
Qed.

(** A token that fills its block: the scan is undefined. *)
Lemma scan_with_overflow (junk inner rest : cstring)
    (mentions : list MentionNode) :
  junk_ok junk = true -> inner_ok inner = true ->
  fits usable inner = false ->
  scan_with usable (junk ++ "<" :: inner ++ ">" :: rest) mentions = Fault.
Proof.
  intros Hj Hi Hfit. unfold scan_with.
  cbn [find_mentions_loop].
  rewrite find_mention_token_step by assumption.
  now rewrite add_mention_overflow.
Qed.

Lemma inner_ok_NUL (s : cstring) : inner_ok s = true -> no_char NUL s = true.
Proof.
  unfold inner_ok. intros H. now apply andb_true_iff in H as [_ ->].
Qed.

Lemma junk_ok_NUL (t : cstring) : junk_ok t = true -> no_char NUL t = true.
Proof. unfold junk_ok. intros H. now apply andb_true_iff in H as [_ ->]. Qed.

(** A token that fits its block: its record, if it has one, is appended and
    the scan goes on after its ['>']. *)
Lemma scan_with_token (junk inner rest : cstring)
    (mentions : list MentionNode) :
  mentions <> [] ->
  junk_ok junk = true -> inner_ok inner = true ->
  fits usable inner = true ->
  scan_with usable (junk ++ "<" :: inner ++ ">" :: rest) mentions
  = scan_with usable rest (mentions ++ option_list (classify inner)).
Proof.
  intros Hm Hj Hi Hfit. unfold scan_with.
  set (buf := junk ++ "<" :: inner ++ ">" :: rest).
  assert (Hlen : length buf = length junk + S (length inner) + S (length rest)).
  { unfold buf. rewrite length_app. simpl. rewrite length_app. simpl. lia. }
  assert (Hstep : find_mention usable buf 0 mentions
                  = Ok (Some (S (length junk + S (length inner))),
                        mentions ++ option_list (classify inner))).
  { unfold buf. rewrite find_mention_token_step by assumption.
    now rewrite add_mention_token by (try apply inner_ok_NUL; assumption). }
  rewrite (find_mentions_loop_step _ _ _ _ _ _ Hstep).
  replace buf with ((junk ++ "<" :: inner ++ [">"]) ++ rest)
    by (unfold buf; rewrite <- app_assoc; simpl; now rewrite <- app_assoc).
  replace (S (length junk + S (length inner)))
    with (length (junk ++ "<" :: inner ++ [">"]) + 0)
    by (rewrite length_app; simpl; rewrite length_app; simpl; lia).
  rewrite find_mentions_loop_shift.
  apply find_mentions_loop_more_fuel; [lia| |lia].
  rewrite !length_app. simpl. lia.
Qed.

(** Every text is in one of the four cases above. *)
Lemma split_last_char (c : ascii) (t : cstring) :
  no_char c t = true
  \/ exists junk inner, t = junk ++ c :: inner /\ no_char c inner = true.
Proof.
  induction t as [|x t IH]; [now left|].
  destruct IH as [Hno | (junk & inner & -> & Hi)].
  - destruct (Ascii.eqb_spec x c) as [->|Hx].
    + right. exists [], t. auto.
    + left. simpl. rewrite Hno. apply Ascii.eqb_neq in Hx. now rewrite Hx.
  - right. exists (x :: junk), inner. auto.
Qed.

Lemma scan_cases (buf : cstring) : scan_case usable buf.
Proof.
  destruct (strchr buf 0 ">") as [rab|] eqn:E; [|now apply case_done].
  unfold strchr in E. simpl in E.
  apply strchr_loop_Some in E as (t & rest & -> & Ht & _).
  destruct (split_last_char "<" t) as [Hno | (junk & inner & -> & Hi)].
  - now apply (case_unmatched _ _ t rest).
  - assert (Hjunk : junk_ok junk = true).
    { unfold junk_ok in *. rewrite !no_char_app in Ht.
      apply andb_true_iff in Ht as [H1 H2].
      apply andb_true_iff in H1 as [-> _].
      apply andb_true_iff in H2 as [-> _]. reflexivity. }
    assert (Hinner : inner_ok inner = true).
    { unfold junk_ok, inner_ok in *.
      rewrite !no_char_app, !no_char_cons in Ht.
      apply andb_true_iff in Ht as [H1 H2].
      apply andb_true_iff in H1 as [_ H1].
      apply andb_true_iff in H1 as [_ ->].
      apply andb_true_iff in H2 as [_ H2].
      apply andb_true_iff in H2 as [_ ->]. now rewrite Hi. }
    assert (Hbuf : (junk ++ "<" :: inner) ++ ">" :: rest
                   = junk ++ "<" :: inner ++ ">" :: rest)
      by now rewrite <- app_assoc.
    destruct (fits usable inner) eqn:Hfit.
    + now apply (case_token _ _ junk inner rest).
    + now apply (case_overflow _ _ junk inner rest).
Qed.

(** * Induction along the scan *)

(** A property of every scan follows from the four cases of one iteration. *)
Lemma scan_with_ind
    (P : cstring -> list MentionNode -> result (list MentionNode) -> Prop) :
  (forall buf acc, strchr buf 0 ">" = None -> P buf acc (Ok acc)) ->
  (forall t rest acc,
      junk_ok t = true -> no_char "<" t = true ->
      P (t ++ ">" :: rest) acc Fault) ->
  (forall junk inner rest acc,
      junk_ok junk = true -> inner_ok inner = true ->
      fits usable inner = false ->
      P (junk ++ "<" :: inner ++ ">" :: rest) acc Fault) ->
  (forall junk inner rest acc,
      acc <> [] ->
      junk_ok junk = true -> inner_ok inner = true ->
      fits usable inner = true ->
      P rest (acc ++ option_list (classify inner))
        (scan_with usable rest (acc ++ option_list (classify inner))) ->
      P (junk ++ "<" :: inner ++ ">" :: rest) acc
        (scan_with usable rest (acc ++ option_list (classify inner)))) ->
  forall buf acc, acc <> [] -> P buf acc (scan_with usable buf acc).
Proof.
  intros Hdone Hfault Hover Htoken buf.
  induction buf as [buf IH] using (induction_ltof1 _ (@length ascii)).
  unfold ltof in IH. intros acc Hacc.
  destruct (scan_cases buf)
    as [E | t rest -> Ht Hl | junk inner rest -> Hj Hi Hfit
       | junk inner rest -> Hj Hi Hfit].
  - rewrite scan_with_done by assumption. now apply Hdone.
  - rewrite scan_with_unmatched by assumption. now apply Hfault.
  - rewrite scan_with_overflow by assumption. now apply Hover.
  - rewrite scan_with_token by assumption.
    apply Htoken; try assumption. apply IH.
    + rewrite length_app. simpl. rewrite length_app. simpl. lia.
    + now apply app_not_nil.
Qed.

Lemma classify_record_ok (inner : cstring) (n : MentionNode) :
  inner_ok inner = true -> classify inner = Some n -> record_ok n = true.
Proof.
  intros Hi. unfold classify, digit_record.
  destruct inner as [|c after]; [discriminate|].
  destruct (Ascii.eqb c "@").
  - destruct after as [|c1 d].
    + simpl. now intros [= <-].
    + destruct (Ascii.eqb c1 "!"); [|destruct (Ascii.eqb c1 "&")].
      * destruct (all_digits d) eqn:E; [|discriminate]. intros [= <-].
        exact E.
      * destruct (all_digits d) eqn:E; [|discriminate]. intros [= <-].
        exact E.
      * destruct (all_digits (c1 :: d)) eqn:E; [|discriminate].
        intros [= <-]. exact E.
  - destruct (Ascii.eqb c "#").
    + destruct (all_digits after) eqn:E; [|discriminate]. intros [= <-].
      exact E.
    + destruct (Ascii.eqb c "a" || Ascii.eqb c ":") eqn:E; [|discriminate].
      intros [= <-]. unfold record_ok. cbn [id type]. now rewrite E, Hi.
Qed.

Lemma records_of_record_ok (segs : list segment) :
  forallb seg_ok segs = true ->
  forallb record_ok (records_of segs) = true.
Proof.
  induction segs as [|s segs IH]; intros H; [reflexivity|].
  simpl in H. apply andb_true_iff in H as [Hs H].
  unfold seg_ok in Hs. apply andb_true_iff in Hs as [_ Hi].
  unfold records_of in *. cbn [flat_map].
  rewrite forallb_app, (IH H), andb_true_r.
  destruct (classify (seg_inner s)) as [n|] eqn:E; [|reflexivity].
  simpl. now rewrite (classify_record_ok _ n Hi E).
Qed.

(** * Texts made of tokens *)

Lemma scan_with_segments (segs : list segment) (rest : cstring)
    (acc : list MentionNode) :
  acc <> [] ->
  forallb seg_ok segs = true -> forallb (seg_fits usable) segs = true ->
  scan_with usable (text_of segs ++ rest) acc
  = scan_with usable rest (acc ++ records_of segs).
Proof.
  revert acc. induction segs as [|s segs IH]; intros acc Hacc H Hf; simpl.
  - now rewrite app_nil_r.
  - simpl in H, Hf. apply andb_true_iff in H as [Hs H].
    apply andb_true_iff in Hf as [Hfs Hf].
    unfold seg_ok in Hs. apply andb_true_iff in Hs as [Hj Hi].
    unfold seg_text, token. rewrite <- !app_assoc. simpl.
    rewrite <- !app_assoc. simpl.
    rewrite scan_with_token by assumption.
    rewrite IH by (assumption || now apply app_not_nil).
    now rewrite app_assoc.
Qed.

(** Two texts that scan alike still do after the same tokens. *)
Lemma scan_with_after_segments (x y : cstring) :
  (forall acc, acc <> [] -> scan_with usable x acc = scan_with usable y acc) ->
  forall segs acc,
    forallb seg_ok segs = true -> acc <> [] ->
    scan_with usable (text_of segs ++ x) acc
    = scan_with usable (text_of segs ++ y) acc.
Proof.
  intros Hxy. induction segs as [|s segs IH]; intros acc Hsegs Hacc.
  - now apply Hxy.
  - simpl in Hsegs. apply andb_true_iff in Hsegs as [Hs Hsegs].
    unfold seg_ok in Hs. apply andb_true_iff in Hs as [Hsj Hsi].
    simpl. unfold seg_text, token. rewrite <- !app_assoc. simpl.
    rewrite <- !app_assoc. simpl.
    destruct (fits usable (seg_inner s)) eqn:Hsf.
    + rewrite !(scan_with_token (seg_junk s) (seg_inner s)) by assumption.
      apply IH; [assumption | now apply app_not_nil].
    + now rewrite !(scan_with_overflow (seg_junk s) (seg_inner s))
        by assumption.
Qed.

Lemma find_mentions_segments (segs : list segment) (tail : cstring) :
  forallb seg_ok segs = true -> forallb (seg_fits usable) segs = true ->
  strchr tail 0 ">" = None ->
  find_mentions usable (text_of segs ++ tail)
  = Ok (null_mention :: records_of segs).
Proof.
  intros Hsegs Hfits Htail.
  rewrite find_mentions_scan_with.
  rewrite scan_with_segments by (assumption || discriminate).
  now apply scan_with_done.
Qed.

(** The outcomes of a scan: the text is made of tokens that fit their
    blocks and of a tail without ['>'], and the scan returns their records;
    or, after such tokens, some ['>'] has no ['<'] between the cursor and
    itself, or closes a token that fills its block, and the behaviour is
    undefined. *)
Lemma scan_with_outcome (buf : cstring) (acc : list MentionNode) :
  acc <> [] ->
  (exists segs tail,
      buf = text_of segs ++ tail /\ forallb seg_ok segs = true
      /\ forallb (seg_fits usable) segs = true
      /\ strchr tail 0 ">" = None
      /\ scan_with usable buf acc = Ok (acc ++ records_of segs))
  \/ (exists segs t rest,
        buf = text_of segs ++ t ++ ">" :: rest /\ forallb seg_ok segs = true
        /\ forallb (seg_fits usable) segs = true
        /\ junk_ok t = true
        /\ (no_char "<" t = true
            \/ exists junk inner,
                 t = junk ++ "<" :: inner /\ inner_ok inner = true
                 /\ fits usable inner = false)
        /\ scan_with usable buf acc = Fault).
Proof.
  apply (scan_with_ind (fun buf acc r =>
    (exists segs tail,
        buf = text_of segs ++ tail /\ forallb seg_ok segs = true
        /\ forallb (seg_fits usable) segs = true
        /\ strchr tail 0 ">" = None /\ r = Ok (acc ++ records_of segs))
    \/ (exists segs t rest,
          buf = text_of segs ++ t ++ ">" :: rest
          /\ forallb seg_ok segs = true
          /\ forallb (seg_fits usable) segs = true
          /\ junk_ok t = true
          /\ (no_char "<" t = true
              \/ exists junk inner,
                   t = junk ++ "<" :: inner /\ inner_ok inner = true
                   /\ fits usable inner = false)
          /\ r = Fault))).
  - intros buf0 acc0 Hdone. left. exists [], buf0.
    simpl. now rewrite app_nil_r.
  - intros t rest acc0 Ht Hl. right. exists [], t, rest. simpl. auto 10.
  - intros junk inner rest acc0 Hj Hi Hfit. right.
    exists [], (junk ++ "<" :: inner), rest. simpl.
    rewrite <- app_assoc. simpl. repeat split; auto.
    + unfold junk_ok, inner_ok in *.
      apply andb_true_iff in Hj as [Hj1 Hj2].
      apply andb_true_iff in Hi as [Hi1 Hi3].
      apply andb_true_iff in Hi1 as [Hi1 Hi2].
      rewrite !no_char_app, !no_char_cons. now rewrite Hj1, Hj2, Hi2, Hi3.
    + right. now exists junk, inner.
  - intros junk inner rest acc0 _ Hj Hi Hfit IH.
    assert (Hok : forall segs, forallb seg_ok segs = true ->
              forallb seg_ok (mkSegment junk inner :: segs) = true).
    { intros segs Hsegs. cbn [forallb]. rewrite Hsegs. unfold seg_ok.
      cbn [seg_junk seg_inner]. now rewrite Hj, Hi. }
    assert (Hfits : forall segs, forallb (seg_fits usable) segs = true ->
              forallb (seg_fits usable) (mkSegment junk inner :: segs)
              = true).
    { intros segs Hsegs. cbn [forallb]. rewrite Hsegs. unfold seg_fits.
      cbn [seg_inner]. now rewrite Hfit. }
    assert (Htext : forall segs tail,
              junk ++ "<" :: inner ++ ">" :: text_of segs ++ tail
              = text_of (mkSegment junk inner :: segs) ++ tail).
    { intros segs tail. simpl. unfold seg_text, token. simpl.
      rewrite <- !app_assoc. simpl. now rewrite <- !app_assoc. }
    destruct IH as [(segs & tail & -> & Hsegs & Hf & Htail & E)
                   |(segs & t & rest' & -> & Hsegs & Hf & Ht & Hl & E)].
    + left. exists (mkSegment junk inner :: segs), tail.
      rewrite E, Htext. repeat split; auto.
      simpl. now rewrite app_assoc.
    + right. exists (mkSegment junk inner :: segs), t, rest'.
      rewrite E, Htext. repeat split; auto.
Qed.

(** Every node after the list the scan was given is a record. *)
Lemma scan_with_records (buf : cstring) (acc res : list MentionNode) :
  acc <> [] ->
  scan_with usable buf acc = Ok res ->
  exists recs, res = acc ++ recs /\ forallb record_ok recs = true.
Proof.
  intros Hacc H.
  destruct (scan_with_outcome buf acc Hacc)
    as [(segs & tail & _ & Hsegs & _ & _ & E)
       |(segs & t & rest & _ & _ & _ & _ & _ & E)]; rewrite E in H;
    [|discriminate].
  injection H as <-. exists (records_of segs). split; [reflexivity|].
  now apply records_of_record_ok.
Qed.

Lemma find_mentions_token (inner : cstring) :
  inner_ok inner = true -> fits usable inner = true ->
  find_mentions usable (token inner)
  = Ok (null_mention :: option_list (classify inner)).
Proof.
  intros Hi Hfit. rewrite find_mentions_scan_with.
  change (token inner) with ([] ++ "<" :: inner ++ ">" :: []).
  rewrite scan_with_token by (assumption || reflexivity || discriminate).
  now apply scan_with_done.
Qed.

Lemma find_mentions_token_rest (inner rest : cstring) :
  inner_ok inner = true -> fits usable inner = true ->
  find_mentions usable (token inner ++ rest)
  = scan_with usable rest (null_mention :: option_list (classify inner)).
Proof.
  intros Hi Hfit. rewrite find_mentions_scan_with.
  unfold token. simpl. rewrite <- app_assoc. simpl.
  change ("<" :: inner ++ ">" :: rest)
    with ([] ++ "<" :: inner ++ ">" :: rest).
  now rewrite scan_with_token by (assumption || reflexivity || discriminate).
Qed.

Lemma find_mentions_token_overflow (inner rest : cstring) :
  inner_ok inner = true -> fits usable inner = false ->
  find_mentions usable (token inner ++ rest) = Fault.
Proof.
  intros Hi Hfit. rewrite find_mentions_scan_with.
  unfold token. simpl. rewrite <- app_assoc. simpl.
  change ("<" :: inner ++ ">" :: rest)
    with ([] ++ "<" :: inner ++ ">" :: rest).
  now apply scan_with_overflow.
Qed.

(** * The scan at a cursor inside the buffer *)

Lemma find_mention_at_cursor (buf : cstring) (ptr : nat)
    (mentions : list MentionNode) :
  ptr <= length buf ->
  find_mention usable buf ptr mentions
  = rmap (shift_cursor ptr) (find_mention usable (skipn ptr buf) 0 mentions).
Proof.
  intros H.
  pose proof (find_mention_shift (firstn ptr buf) (skipn ptr buf) 0 mentions)
    as E.
  rewrite firstn_skipn, length_firstn, Nat.add_0_r in E.
  now rewrite Nat.min_l in E by assumption.
Qed.

Lemma find_mention_unmatched (buf : cstring) (ptr rab : nat)
    (mentions : list MentionNode) :
  strchr buf ptr ">" = Some rab ->
  no_char "<" (window buf ptr rab) = true ->
  find_mention usable buf ptr mentions = Fault.
Proof.
  intros Hrab Hwin.
  assert (Hptr : ptr <= length buf).
  { destruct (Nat.le_gt_cases ptr (length buf)) as [|Hgt]; [assumption|].
    unfold strchr in Hrab. rewrite skipn_all2 in Hrab by lia. discriminate. }
  rewrite find_mention_at_cursor by assumption.
  unfold strchr in Hrab. unfold window in Hwin.
  apply strchr_loop_Some in Hrab as (t & rest & Hs & Ht & ->).
  rewrite Hs in Hwin |- *.
  replace (S (ptr + length t) - ptr) with (length t + 1) in Hwin by lia.
  replace (t ++ ">" :: rest) with ((t ++ [">"]) ++ rest) in Hwin
    by (now rewrite <- app_assoc).
  rewrite firstn_app, firstn_all2 in Hwin by (rewrite length_app; simpl; lia).
  rewrite length_app in Hwin. simpl in Hwin.
  replace (length t + 1 - (length t + 1)) with 0 in Hwin by lia.
  simpl in Hwin. rewrite app_nil_r, no_char_app in Hwin.
  apply andb_true_iff in Hwin as [Hl _].
  unfold find_mention, strchr. simpl skipn.
  rewrite strchr_loop_found by assumption. simpl.
  rewrite find_closest_lab_none by assumption.
  destruct mentions; reflexivity.
Qed.

Lemma no_char_count (c : ascii) (s : cstring) :
  no_char c s = true -> count_occ ascii_dec s c = 0.
Proof. intros H. apply count_occ_not_In. now apply no_char_In. Qed.

Lemma scan_with_length (buf : cstring) (acc res : list MentionNode) :
  acc <> [] ->
  scan_with usable buf acc = Ok res ->
  length res <= length acc + count_occ ascii_dec buf ">".
Proof.
  intros Hacc. revert res. revert buf acc Hacc.
  apply (scan_with_ind (fun buf acc r => forall res, r = Ok res ->
    length res <= length acc + count_occ ascii_dec buf ">")).
  - intros buf0 acc0 _ res [= <-]. lia.
  - discriminate.
  - discriminate.
  - intros junk inner rest acc0 _ _ _ _ IH res Hres.
    specialize (IH res Hres). rewrite length_app in IH.
    assert (length (option_list (classify inner)) <= 1)
      by (destruct (classify inner); simpl; lia).
    rewrite count_occ_app. simpl. rewrite count_occ_app. simpl. lia.
Qed.

Lemma strchr_loop_strcpy (s : cstring) (p : nat) :
  strchr_loop (strcpy s) p ">" = strchr_loop s p ">".
Proof.
  revert p. induction s as [|x s IH]; intros p; simpl; [reflexivity|].
  destruct (Ascii.eqb_spec x NUL) as [->|Hn]; [reflexivity|].
  simpl. apply Ascii.eqb_neq in Hn. rewrite Hn.
  destruct (Ascii.eqb x ">"); [reflexivity | apply IH].
Qed.

Lemma scan_with_strcpy (buf : cstring) (acc : list MentionNode) :
  acc <> [] ->
  scan_with usable (strcpy buf) acc = scan_with usable buf acc.
Proof.
  revert buf acc.
  apply (scan_with_ind
           (fun buf acc r => scan_with usable (strcpy buf) acc = r)).
  - intros buf0 acc0 Hdone. apply scan_with_done.
    unfold strchr in *. simpl in *. now rewrite strchr_loop_strcpy.
  - intros t rest acc0 Ht Hl.
    rewrite strcpy_app_NUL_free by now apply junk_ok_NUL.
    simpl. now apply scan_with_unmatched.
  - intros junk inner rest acc0 Hj Hi Hfit.
    rewrite strcpy_app_NUL_free by now apply junk_ok_NUL.
    simpl. rewrite strcpy_app_NUL_free by now apply inner_ok_NUL.
    simpl. now apply scan_with_overflow.
  - intros junk inner rest acc0 Hacc Hj Hi Hfit IH.
    rewrite strcpy_app_NUL_free by now apply junk_ok_NUL.
    simpl. rewrite strcpy_app_NUL_free by now apply inner_ok_NUL.
    simpl. now rewrite scan_with_token.
Qed.

End Scan.

Section Heap.

Variable usable : nat -> nat.

(** * Allocations of one token *)

Lemma new_mention_mem_spec (buf : cstring) (lab : option nat) (rab : nat)
    (live : Z) :
  new_mention_mem usable buf null_mention lab rab live
  = n <- new_mention usable buf null_mention lab rab ;;
    Ok (n, (live + match id n with Some _ => 1 | None => 0 end)%Z).
Proof.
  unfold new_mention_mem, new_mention.
  destruct lab as [lab|]; [|reflexivity].
  destruct (rab <=? lab); [reflexivity|].
  unfold mbind at 1. unfold malloc at 1.
  destruct (usable (rab - lab - 1) <=? rab - lab - 1); [reflexivity|].
  cbv zeta. unfold mbind, malloc, free, mret.
  destruct (Ascii.eqb _ "@").
  - destruct (Ascii.eqb _ "!"); [|destruct (Ascii.eqb _ "&")];
      destruct (ensure_int_str _); simpl; do 2 f_equal; lia.
  - destruct (Ascii.eqb _ "#"); [simpl; do 2 f_equal; lia|].
    destruct (_ || _); simpl; do 2 f_equal; lia.
Qed.

Lemma add_mention_mem_spec (buf : cstring) (m : MentionNode)
    (ms : list MentionNode) (lab : option nat) (rab : nat) (live : Z) :
  add_mention_mem usable buf (m :: ms) lab rab live
  = n <- new_mention usable buf null_mention lab rab ;;
    if accepted n then Ok ((m :: ms) ++ [n], (live + 2)%Z)
    else Ok (m :: ms,
             (live + match id n with Some _ => 1 | None => 0 end)%Z).
Proof.
  unfold add_mention_mem, null_mention_mem.
  unfold mbind at 1 2. unfold malloc at 1. unfold mret at 1.
  unfold mbind. rewrite new_mention_mem_spec.
  destruct (new_mention usable buf null_mention lab rab) as [n| |]; simpl;
    try reflexivity.
  unfold accepted. destruct n as [[d|] t]; destruct t; simpl;
    unfold mbind, mret, free; simpl; do 2 f_equal; lia.
Qed.

Lemma add_mention_mem_nil (buf : cstring) (lab : option nat) (rab : nat)
    (live : Z) :
  add_mention_mem usable buf [] lab rab live = Fault.
Proof. reflexivity. Qed.

(** Without the counter, [add_mention_mem] is [add_mention]. *)
Lemma add_mention_mem_value (buf : cstring) (mentions : list MentionNode)
    (lab : option nat) (rab : nat) (live : Z) :
  rmap fst (add_mention_mem usable buf mentions lab rab live)
  = add_mention usable buf mentions lab rab.
Proof.
  destruct mentions as [|m ms]; [reflexivity|].
  rewrite add_mention_mem_spec, add_mention_cons. unfold rmap.
  destruct (new_mention usable buf null_mention lab rab) as [n| |]; simpl;
    try reflexivity.
  destruct (accepted n); reflexivity.
Qed.

Lemma find_mention_mem_value (buf : cstring) (src : nat)
    (mentions : list MentionNode) (live : Z) :
  rmap fst (find_mention_mem usable buf src mentions live)
  = find_mention usable buf src mentions.
Proof.
  unfold find_mention_mem, find_mention.
  destruct (strchr buf src ">") as [rab|]; [|reflexivity].
  cbv zeta. rewrite <- (add_mention_mem_value buf mentions _ rab live).
  unfold mbind, mret, rmap, bind.
  destruct (add_mention_mem usable buf mentions _ rab live) as [[m l]| |];
    reflexivity.
Qed.

Lemma find_mentions_loop_mem_value (fuel : nat) (buf : cstring) (ptr : nat)
    (mentions : list MentionNode) (live : Z) :
  rmap fst (find_mentions_loop_mem usable fuel buf ptr mentions live)
  = find_mentions_loop usable fuel buf ptr mentions.
Proof.
  revert ptr mentions live.
  induction fuel as [|fuel IH]; intros ptr mentions live; [reflexivity|].
  simpl. rewrite <- (find_mention_mem_value buf ptr mentions live).
  unfold mbind.
  destruct (find_mention_mem usable buf ptr mentions live)
    as [[[[p|] m] l]| |]; simpl; try reflexivity.
  apply IH.
Qed.

(** Without the counter, [find_mentions_mem] is [find_mentions]. *)
Lemma find_mentions_mem_value (src : cstring) (live : Z) :
  rmap fst (find_mentions_mem usable src live) = find_mentions usable src.
Proof.
  unfold find_mentions_mem, null_mention_mem, find_mentions.
  unfold mbind at 1 2. unfold malloc, mret. cbv beta iota.
  apply find_mentions_loop_mem_value.
Qed.

Lemma add_mention_mem_shift (pre buf : cstring) (mentions : list MentionNode)
    (lab : option nat) (rab : nat) (live : Z) :
  add_mention_mem usable (pre ++ buf) mentions
    (option_map (Nat.add (length pre)) lab) (length pre + rab) live
  = add_mention_mem usable buf mentions lab rab live.
Proof.
  destruct mentions as [|m ms]; [reflexivity|].
  now rewrite !add_mention_mem_spec, new_mention_shift.
Qed.

Lemma find_mention_mem_shift (pre buf : cstring) (src : nat)
    (mentions : list MentionNode) (live : Z) :
  find_mention_mem usable (pre ++ buf) (length pre + src) mentions live
  = rmap (fun x => (shift_cursor (length pre) (fst x), snd x))
      (find_mention_mem usable buf src mentions live).
Proof.
  unfold find_mention_mem. rewrite strchr_shift.
  destruct (strchr buf src ">") as [rab|]; simpl; [|reflexivity].
  rewrite find_closest_lab_shift. unfold mbind.
  rewrite add_mention_mem_shift.
  destruct (add_mention_mem usable buf mentions _ rab live) as [[m l]| |];
    simpl; try reflexivity.
  unfold shift_cursor, mret. simpl. now rewrite Nat.add_succ_r.
Qed.

Lemma find_mentions_loop_mem_shift (fuel : nat) (pre buf : cstring)
    (ptr : nat) (mentions : list MentionNode) (live : Z) :
  find_mentions_loop_mem usable fuel (pre ++ buf) (length pre + ptr)
    mentions live
  = find_mentions_loop_mem usable fuel buf ptr mentions live.
Proof.
  revert ptr mentions live.
  induction fuel as [|fuel IH]; intros ptr mentions live; [reflexivity|].
  simpl. unfold mbind. rewrite find_mention_mem_shift.
  destruct (find_mention_mem usable buf ptr mentions live)
    as [[[[p|] m] l]| |]; simpl; try reflexivity.
  apply IH.
Qed.

Lemma find_mention_mem_advances (buf : cstring) (src ptr' : nat)
    (mentions mentions' : list MentionNode) (live live' : Z) :
  find_mention_mem usable buf src mentions live
  = Ok (Some ptr', mentions', live') ->
  src < ptr' <= length buf.
Proof.
  intros H.
  apply (find_mention_advances usable buf src ptr' mentions mentions').
  rewrite <- (find_mention_mem_value buf src mentions live), H. reflexivity.
Qed.

Lemma find_mentions_loop_mem_more_fuel (fuel fuel' : nat) (buf : cstring)
    (ptr : nat) (mentions : list MentionNode) (live : Z) :
  ptr <= length buf ->
  length buf < fuel + ptr -> length buf < fuel' + ptr ->
  find_mentions_loop_mem usable fuel buf ptr mentions live
  = find_mentions_loop_mem usable fuel' buf ptr mentions live.
Proof.
  revert fuel' ptr mentions live.
  induction fuel as [|fuel IH]; intros fuel' ptr mentions live Hp H H'.
  - simpl in H. lia.
  - destruct fuel' as [|fuel']; [simpl in H'; lia|].
    simpl. unfold mbind.
    destruct (find_mention_mem usable buf ptr mentions live)
      as [[[[p|] m] l]| |] eqn:E; simpl; try reflexivity.
    apply find_mention_mem_advances in E. apply IH; lia.
Qed.

(** A token that fits its block: its record is appended and the counter
    goes up by the blocks the token leaves allocated. *)
Lemma add_mention_mem_token (junk inner rest : cstring)
    (mentions : list MentionNode) (live : Z) :
  mentions <> [] ->
  no_char NUL inner = true -> fits usable inner = true ->
  add_mention_mem usable (junk ++ "<" :: inner ++ ">" :: rest) mentions
    (Some (length junk)) (length junk + S (length inner)) live
  = Ok (mentions ++ option_list (classify inner),
        (live + token_blocks inner)%Z).
Proof.
  intros Hm Hn Hfit. destruct mentions as [|m ms]; [congruence|].
  rewrite add_mention_mem_spec, new_mention_token.
  rewrite new_mention_token_node by assumption. simpl.
  unfold token_blocks.
  destruct (classify inner) as [n|] eqn:E.
  - rewrite (classify_accepted inner n E). simpl.
    destruct (rejected_channel inner) eqn:R; [|do 2 f_equal; lia].
    apply classify_rejected_channel in R. congruence.
  - unfold accepted. simpl. rewrite app_nil_r.
    destruct (rejected_channel inner); reflexivity.
Qed.

Lemma scan_with_mem_done (buf : cstring) (mentions : list MentionNode)
    (live : Z) :
  strchr buf 0 ">" = None ->
  scan_with_mem usable buf mentions live = Ok (mentions, live).
Proof.
  intros H. unfold scan_with_mem. simpl.
  unfold mbind, find_mention_mem. now rewrite H.
Qed.

Lemma scan_with_mem_token (junk inner rest : cstring)
    (mentions : list MentionNode) (live : Z) :
  mentions <> [] ->
  junk_ok junk = true -> inner_ok inner = true ->
  fits usable inner = true ->
  scan_with_mem usable (junk ++ "<" :: inner ++ ">" :: rest) mentions live
  = scan_with_mem usable rest (mentions ++ option_list (classify inner))
      (live + token_blocks inner)%Z.
Proof.
  intros Hm Hj Hi Hfit.
  pose proof (inner_ok_NUL inner Hi) as Hnul.
  unfold inner_ok in Hi.
  apply andb_true_iff in Hi as [Hi Hn].
  apply andb_true_iff in Hi as [Hl Hr].
  unfold scan_with_mem.
  set (buf := junk ++ "<" :: inner ++ ">" :: rest).
  assert (Hbuf : buf = (junk ++ "<" :: inner) ++ ">" :: rest).
  { unfold buf. now rewrite <- app_assoc. }
  assert (Hlen : length buf = length junk + S (length inner) + S (length rest)).
  { unfold buf. rewrite length_app. simpl. rewrite length_app. simpl. lia. }
  assert (Hstep : find_mention_mem usable buf 0 mentions live
                  = Ok (Some (S (length junk + S (length inner))),
                        mentions ++ option_list (classify inner),
                        (live + token_blocks inner)%Z)).
  { unfold find_mention_mem, strchr. rewrite Hbuf.
    change (skipn 0 ((junk ++ "<" :: inner) ++ ">" :: rest))
      with ((junk ++ "<" :: inner) ++ ">" :: rest).
    rewrite strchr_loop_found.
    - rewrite length_app. simpl length. simpl Nat.add at 1.
      rewrite <- Hbuf. unfold buf.
      rewrite find_closest_lab_some by assumption.
      unfold mbind. now rewrite add_mention_mem_token.
    - unfold junk_ok in *. rewrite !no_char_app, !no_char_cons.
      apply andb_true_iff in Hj as [-> ->]. now rewrite Hr, Hn. }
  change (find_mentions_loop_mem usable (S (length buf)) buf 0 mentions live)
    with (mbind (find_mention_mem usable buf 0 mentions)
            (fun r => match r with
                      | (None, m) => mret m
                      | (Some p, m) =>
                          find_mentions_loop_mem usable (length buf) buf p m
                      end) live).
  unfold mbind at 1. rewrite Hstep.
  replace buf with ((junk ++ "<" :: inner ++ [">"]) ++ rest)
    by (unfold buf; rewrite <- app_assoc; simpl; now rewrite <- app_assoc).
  replace (S (length junk + S (length inner)))
    with (length (junk ++ "<" :: inner ++ [">"]) + 0)
    by (rewrite length_app; simpl; rewrite length_app; simpl; lia).
  rewrite find_mentions_loop_mem_shift.
  apply find_mentions_loop_mem_more_fuel; [lia| |lia].
  rewrite !length_app. simpl. lia.
Qed.

Lemma segments_blocks (segs : list segment) :
  fold_right (fun s z => (token_blocks (seg_inner s) + z)%Z) 0%Z segs
  = (2 * Z.of_nat (length (records_of segs))
     + Z.of_nat (length (filter rejected_channel (map seg_inner segs))))%Z.
Proof.
  induction segs as [|s segs IH]; [reflexivity|].
  cbn [fold_right map filter]. rewrite IH.
  unfold token_blocks, records_of. cbn [flat_map]. rewrite length_app.
  destruct (rejected_channel (seg_inner s)); cbn [length]; lia.
Qed.

Lemma scan_with_mem_segments (segs : list segment) (rest : cstring)
    (acc : list MentionNode) (live : Z) :
  acc <> [] ->
  forallb seg_ok segs = true -> forallb (seg_fits usable) segs = true ->
  scan_with_mem usable (text_of segs ++ rest) acc live
  = scan_with_mem usable rest (acc ++ records_of segs)
      (live + fold_right (fun s z => (token_blocks (seg_inner s) + z)%Z)
                0%Z segs)%Z.
Proof.
  revert acc live.
  induction segs as [|s segs IH]; intros acc live Hacc H Hf; simpl.
  - now rewrite app_nil_r, Z.add_0_r.
  - simpl in H, Hf. apply andb_true_iff in H as [Hs H].
    apply andb_true_iff in Hf as [Hfs Hf].
    unfold seg_ok in Hs. apply andb_true_iff in Hs as [Hj Hi].
    unfold seg_text, token. rewrite <- !app_assoc. simpl.
    rewrite <- !app_assoc. simpl.
    rewrite scan_with_mem_token by assumption.
    rewrite IH by (assumption || now apply app_not_nil).
    rewrite app_assoc. f_equal. lia.
Qed.

(** * destroy_mentions *)

Lemma blocks_of_cons (n : MentionNode) (l : list MentionNode) :
  blocks_of (n :: l)
  = (blocks_of l + 1 + match id n with Some _ => 1 | None => 0 end)%Z.
Proof. reflexivity. Qed.

Lemma destroy_mentions_spec (mentions : list MentionNode) (live : Z) :
  mentions <> [] ->
  destroy_mentions mentions live
  = Ok (tt, (live - blocks_of mentions + kept_by_destroy mentions)%Z).
Proof.
  revert live.
  induction mentions as [|n l IH]; intros live Hne; [congruence|].
  destruct l as [|m l'].
  - unfold kept_by_destroy. cbn [last destroy_mentions].
    rewrite blocks_of_cons. destruct n as [[d|] t]; destruct t;
      unfold mbind, free, mret; simpl; do 2 f_equal; lia.
  - change (destroy_mentions (n :: m :: l') live)
      with ((_ <~ free (id n) ;; _ <~ free (Some n) ;;
             destroy_mentions (m :: l')) live).
    unfold mbind at 1 2. unfold free at 1 2.
    assert (Hk : kept_by_destroy (n :: m :: l') = kept_by_destroy (m :: l'))
      by reflexivity.
    rewrite Hk, (blocks_of_cons n).
    destruct (id n); rewrite IH by discriminate; do 2 f_equal; lia.
Qed.

Lemma blocks_of_records (recs : list MentionNode) :
  forallb record_ok recs = true ->
  blocks_of recs = (2 * Z.of_nat (length recs))%Z
  /\ kept_by_destroy (null_mention :: recs) = 0%Z.
Proof.
  induction recs as [|n recs IH]; intros H; [split; reflexivity|].
  simpl in H. apply andb_true_iff in H as [Hn H].
  destruct (IH H) as (IHb & IHk). split.
  - rewrite blocks_of_cons, IHb. unfold record_ok in Hn.
    destruct (id n); [cbn [length]; lia | discriminate].
  - unfold kept_by_destroy in *. destruct recs as [|m recs'].
    + cbn [last]. unfold record_ok in Hn.
      destruct n as [[d|] t]; simpl in *; [|discriminate].
      destruct t; (discriminate || reflexivity).
    + exact IHk.
Qed.

(** The scan of a text made of tokens that fit their blocks, then
    [destroy_mentions] on the list: the counter ends one higher for each
    channel token that fails the validation. *)
Lemma find_mentions_mem_segments (segs : list segment) (tail : cstring)
    (live : Z) :
  forallb seg_ok segs = true -> forallb (seg_fits usable) segs = true ->
  strchr tail 0 ">" = None ->
  find_mentions_mem usable (text_of segs ++ tail) live
  = Ok (null_mention :: records_of segs,
        (live + 1 + 2 * Z.of_nat (length (records_of segs))
         + Z.of_nat (length (filter rejected_channel
                               (map seg_inner segs))))%Z).
Proof.
  intros Hsegs Hfits Htail.
  unfold find_mentions_mem, null_mention_mem.
  unfold mbind at 1 2. unfold malloc at 1. unfold mret at 1.
  change (find_mentions_loop_mem usable
            (S (length (text_of segs ++ tail))) (text_of segs ++ tail) 0
            [null_mention] (live + 1)%Z)
    with (scan_with_mem usable (text_of segs ++ tail) [null_mention]
            (live + 1)%Z).
  rewrite scan_with_mem_segments by (assumption || discriminate).
  rewrite scan_with_mem_done by assumption.
  rewrite segments_blocks. cbn [app]. do 2 f_equal. lia.
Qed.

(** * The Ruby binding *)

Lemma record_ok_inner_ok (n : MentionNode) :
  record_ok n = true -> inner_ok (id_text n) = true.
Proof.
  unfold record_ok, id_text. destruct n as [[d|] t]; simpl; [|discriminate].
  destruct t; try discriminate; try apply all_digits_inner_ok.
  destruct d as [|c e]; [discriminate|].
  intros H. now apply andb_true_iff in H as [_ ->].
Qed.

Lemma rb_mention_to_rb_ary_record (n : MentionNode) :
  record_ok n = true -> rb_mention_to_rb_ary n = Ok (rb_pair n).
Proof.
  intros H. pose proof (record_ok_inner_ok n H) as Hi.
  apply inner_ok_NUL in Hi.
  unfold rb_mention_to_rb_ary, rb_pair, record_ok, id_text in *.
  destruct n as [[d|] t]; simpl in *; [|discriminate].
  destruct t; try discriminate; simpl; now rewrite (strcpy_no_NUL d Hi).
Qed.

Lemma rb_parse_mentions_loop_records (recs : list MentionNode)
    (mention_ary : list VALUE) :
  forallb record_ok recs = true ->
  rb_parse_mentions_loop recs mention_ary
  = Ok (mention_ary ++ map rb_pair recs).
Proof.
  revert mention_ary. induction recs as [|n recs IH]; intros ary H; simpl.
  - now rewrite app_nil_r.
  - simpl in H. apply andb_true_iff in H as [Hn H].
    rewrite (rb_mention_to_rb_ary_record n Hn). simpl.
    rewrite (IH _ H). unfold rb_ary_push. now rewrite <- app_assoc.
Qed.

(** The call on a text made of tokens that fit their blocks. *)
Lemma rb_parse_mentions_segments (self : VALUE) (s : string)
    (segs : list segment) (tail : cstring) (live : Z) :
  cstr s = text_of segs ++ tail ->
  forallb seg_ok segs = true -> forallb (seg_fits usable) segs = true ->
  strchr tail 0 ">" = None ->
  rb_parse_mentions usable self (T_STRING s) live
  = Ok (T_ARRAY (map rb_pair (records_of segs)),
        (live + Z.of_nat (length (filter rejected_channel
                                    (map seg_inner segs))))%Z).
Proof.
  intros Hs Hsegs Hfits Htail.
  pose proof (records_of_record_ok segs Hsegs) as Hok.
  destruct (blocks_of_records (records_of segs) Hok) as (Hb & Hk).
  unfold rb_parse_mentions. unfold mbind at 1.
  rewrite Hs, find_mentions_mem_segments by assumption.
  unfold mbind at 1. unfold lift.
  rewrite rb_parse_mentions_loop_records by assumption.
  unfold mbind.
  rewrite destroy_mentions_spec by discriminate.
  rewrite Hk, blocks_of_cons, Hb.
  unfold mret. cbn [id null_mention app]. do 2 f_equal. lia.
Qed.

Lemma rb_parse_mentions_fault (self : VALUE) (s : string) (live : Z) :
  find_mentions usable (cstr s) = Fault ->
  rb_parse_mentions usable self (T_STRING s) live = Fault.
Proof.
  intros H. rewrite <- (find_mentions_mem_value (cstr s) live) in H.
  unfold rb_parse_mentions, mbind.
  destruct (find_mentions_mem usable (cstr s) live) as [[m l]| |];
    [discriminate | reflexivity | discriminate].
Qed.

Lemma rb_parse_mentions_string (self : VALUE) (s : string) (live : Z) :
  match find_mentions usable (cstr s) with
  | Ok res =>
      exists live',
        rb_parse_mentions usable self (T_STRING s) live
        = Ok (T_ARRAY (map rb_pair (tl res)), live')
  | Fault => rb_parse_mentions usable self (T_STRING s) live = Fault
  | OutOfFuel => False
  end.
Proof.
  pose proof (rb_parse_mentions_fault self s live) as Hf.
  rewrite find_mentions_scan_with in *.
  destruct (scan_with_outcome usable (cstr s) [null_mention])
    as [(segs & tail & Hs & Hsegs & Hfits & Htail & E)
       |(segs & t & rest & _ & _ & _ & _ & _ & E)];
    [discriminate| |]; rewrite E in *.
  - eexists. cbn [app tl].
    apply (rb_parse_mentions_segments self s segs tail live); assumption.
  - now apply Hf.
Qed.

End Heap.

(** * Unmatched ['>'] *)

(** C1.  The specification has the scan stop and return the list built so
    far when a ['>'] has no ['<'] between the cursor and itself.  The code
    does not return there: [find_closest_lab] hands NULL to [add_mention],
    and [new_mention] computes [rab - lab] and reads [lab + 1] on it.
    Whenever an iteration finds such a ['>'], the loop ends in [Fault],
    whatever the list holds and whatever the allocator; scanning
    "hello > <@123>" is one such run. *)
Theorem unmatched_rab_is_fault :
  (forall (usable : nat -> nat) (fuel : nat) (buf : cstring) (ptr rab : nat)
          (mentions : list MentionNode),
      strchr buf ptr ">" = Some rab ->
      no_char "<" (window buf ptr rab) = true ->
      find_mentions_loop usable (S fuel) buf ptr mentions = Fault)
  /\ (forall usable : nat -> nat,
        find_mentions usable (cstr "hello > <@123>") = Fault).
Proof.
  split; [|reflexivity].
  intros usable fuel buf ptr rab mentions Hrab Hwin. simpl.
  now rewrite (find_mention_unmatched usable buf ptr rab mentions Hrab Hwin).
Qed.

Lemma unmatched_rab_is_fault_witness :
  strchr (cstr "<@1> hello > <@123>") 4 ">" = Some 11
  /\ no_char "<" (window (cstr "<@1> hello > <@123>") 4 11) = true
  /\ find_mentions_loop glibc_usable 3 (cstr "<@1> hello > <@123>") 4
       [null_mention; mention User "1"] = Fault.
Proof.
  split; [reflexivity|]. split; [reflexivity|].
  apply (proj1 unmatched_rab_is_fault glibc_usable 2
           (cstr "<@1> hello > <@123>") 4 11);
    reflexivity.
Defined.

(** * Totality *)

(** C2.  The loop of [find_mentions] always comes to an end: the model never
    runs out of fuel, and texts without ['>'] (the empty text, unmatched
    ['<']) yield the empty list.  But a call does not always return: it
    returns on the texts made of tokens that fit their blocks and of a tail
    without ['>']; on any other text, where after such tokens some ['>'] is
    unmatched, as in ">", or closes a token that fills its block, the
    behaviour is undefined. *)
Theorem find_mentions_terminates_but_faults :
  (forall (usable : nat -> nat) (src : cstring),
      find_mentions usable src <> OutOfFuel)
  /\ (forall (usable : nat -> nat) (src : cstring),
        (exists segs tail,
            src = text_of segs ++ tail /\ forallb seg_ok segs = true
            /\ forallb (seg_fits usable) segs = true
            /\ strchr tail 0 ">" = None
            /\ find_mentions usable src
               = Ok (null_mention :: records_of segs))
        \/ (exists segs t rest,
              src = text_of segs ++ t ++ ">" :: rest
              /\ forallb seg_ok segs = true
              /\ forallb (seg_fits usable) segs = true
              /\ junk_ok t = true
              /\ (no_char "<" t = true
                  \/ exists junk inner,
                       t = junk ++ "<" :: inner /\ inner_ok inner = true
                       /\ fits usable inner = false)
              /\ find_mentions usable src = Fault))
  /\ (forall usable : nat -> nat,
        find_mentions usable (cstr "") = Ok [null_mention])
  /\ (forall usable : nat -> nat,
        find_mentions usable (cstr "<<@12") = Ok [null_mention])
  /\ (forall usable : nat -> nat, find_mentions usable (cstr ">") = Fault)
  /\ (forall usable : nat -> nat,
        find_mentions usable (cstr "<@1> 2 > 1") = Fault).
Proof.
  split; [|split; [|repeat split]].
  - intros usable src. apply find_mentions_loop_fuel; simpl; lia.
  - intros usable src. rewrite find_mentions_scan_with.
    apply (scan_with_outcome usable src [null_mention]). discriminate.
  - intros usable.
    change (cstr "<@1> 2 > 1") with (token (cstr "@1") ++ cstr " 2 > 1").
    destruct (fits usable (cstr "@1")) eqn:Hfit.
    + rewrite find_mentions_token_rest by (assumption || reflexivity).
      now apply (scan_with_unmatched usable (cstr " 2 ") (cstr " 1")).
    + now apply find_mentions_token_overflow.
Qed.

Lemma find_mentions_terminates_but_faults_witness :
  find_mentions glibc_usable (cstr "a>b<c>") <> OutOfFuel.
Proof.
  apply (proj1 find_mentions_terminates_but_faults glibc_usable
           (cstr "a>b<c>")).
Defined.

(** * Digit validation *)

Lemma token_classify_digits (t : MentionType) (d : cstring) :
  t = User \/ t = Role \/ t = Channel ->
  (t = User -> marked d = false) ->
  classify (prefix_of t ++ d) = digit_record t d.
Proof.
  intros Ht Hm.
  destruct Ht as [->|[->| ->]]; simpl; try reflexivity.
  specialize (Hm eq_refl). destruct d as [|c d]; [reflexivity|].
  simpl in Hm. apply orb_false_iff in Hm as [-> ->]. reflexivity.
Qed.

Lemma inner_ok_prefix (t : MentionType) (d : cstring) :
  inner_ok d = true -> inner_ok (prefix_of t ++ d) = true.
Proof. destruct t; simpl; auto. Qed.

Lemma digits_not_marked (d : cstring) :
  all_digits d = true -> marked d = false.
Proof.
  destruct d as [|c d]; [reflexivity|].
  simpl. intros Hd. apply andb_true_iff in Hd as [Hc _].
  destruct (is_digit_not_special c Hc) as (_ & _ & _ & E1 & E2).
  now rewrite E1, E2.
Qed.

(** A user, role or channel token that fits its block yields its record
    exactly when its identifier is made of digits; so does a nickname
    token. *)
Lemma digit_validation_parts (usable : nat -> nat) :
  (forall (t : MentionType) (d : cstring),
      inner_ok d = true ->
      t = User \/ t = Role \/ t = Channel ->
      (t = User -> marked d = false) ->
      fits usable (prefix_of t ++ d) = true ->
      find_mentions usable (token (prefix_of t ++ d))
      = Ok (null_mention ::
            if all_digits d then [{| id := Some d; type := t |}] else []))
  /\ (forall d : cstring,
        inner_ok d = true ->
        fits usable ("@" :: "!" :: d) = true ->
        find_mentions usable (token ("@" :: "!" :: d))
        = Ok (null_mention ::
              if all_digits d then [{| id := Some d; type := User |}]
              else [])).
Proof.
  split.
  - intros t d Hd Ht Hm Hfit.
    rewrite find_mentions_token by (try apply inner_ok_prefix; assumption).
    rewrite token_classify_digits by assumption.
    unfold digit_record. destruct (all_digits d); reflexivity.
  - intros d Hd Hfit.
    rewrite find_mentions_token by assumption.
    simpl. unfold digit_record. destruct (all_digits d); reflexivity.
Qed.

(** C3.  [ensure_int_str] accepts a C string exactly when each of its
    characters is an ASCII digit, so it accepts the empty string.  A user,
    nickname, role or channel token whose interior fits the block that line
    71 gets for it yields a record exactly when its identifier is made of
    digits, and "<@>" then yields the one record {User, ""}.  A token whose
    interior fills its block is another matter: line 73 stores the
    terminator past the block, and the validation then runs on whatever
    lies there; on glibc's blocks "<@!" followed by 22 digits and ">" is
    such a token. *)
Theorem digit_validation :
  (forall str : cstring, ensure_int_str str = all_digits (strcpy str))
  /\ (forall str : cstring,
        no_char NUL str = true -> ensure_int_str str = all_digits str)
  /\ ensure_int_str [] = true
  /\ (forall usable : nat -> nat,
        fits usable (cstr "@") = true ->
        find_mentions usable (cstr "<@>")
        = Ok [null_mention; mention User ""])
  /\ (forall (usable : nat -> nat) (t : MentionType) (d : cstring),
        inner_ok d = true ->
        t = User \/ t = Role \/ t = Channel ->
        (t = User -> marked d = false) ->
        fits usable (prefix_of t ++ d) = true ->
        find_mentions usable (token (prefix_of t ++ d))
        = Ok (null_mention ::
              if all_digits d then [{| id := Some d; type := t |}] else []))
  /\ (forall (usable : nat -> nat) (d : cstring),
        inner_ok d = true ->
        fits usable ("@" :: "!" :: d) = true ->
        find_mentions usable (token ("@" :: "!" :: d))
        = Ok (null_mention ::
              if all_digits d then [{| id := Some d; type := User |}]
              else []))
  /\ (all_digits (cstr "1234567890123456789012") = true
      /\ fits glibc_usable (cstr "@!1234567890123456789012") = false
      /\ find_mentions glibc_usable (cstr "<@!1234567890123456789012>")
         = Fault).
Proof.
  split; [exact ensure_int_str_spec|].
  split.
  { intros str H. now rewrite ensure_int_str_spec, strcpy_no_NUL. }
  split; [reflexivity|]. split.
  { intros usable Hfit.
    apply (proj1 (digit_validation_parts usable) User []);
      (assumption || reflexivity || auto). }
  split; [intros usable; apply (proj1 (digit_validation_parts usable))|].
  split; [intros usable; apply (proj2 (digit_validation_parts usable))|].
  repeat split.
Qed.

Lemma digit_validation_witness :
  ensure_int_str (cstr "12x4") = false
  /\ find_mentions glibc_usable (cstr "<@>")
     = Ok [null_mention; mention User ""]
  /\ find_mentions glibc_usable (cstr "<@&12x4>") = Ok [null_mention]
  /\ find_mentions glibc_usable (cstr "<@!2024>")
     = Ok [null_mention; mention User "2024"].
Proof.
  destruct digit_validation as (_ & Hstr & _ & Hempty & Htok & Hnick & _).
  split; [|split; [|split]].
  - rewrite (Hstr (cstr "12x4")); reflexivity.
  - apply (Hempty glibc_usable). reflexivity.
  - apply (Htok glibc_usable Role (cstr "12x4")).
    + reflexivity.
    + right. left. reflexivity.
    + discriminate.
    + reflexivity.
  - apply (Hnick glibc_usable (cstr "2024")); reflexivity.
Defined.

(** * Rejected tokens *)

(** C4.  A token that has no record by the table (its interior fails the
    classification or the digit validation) and whose interior fits its
    block contributes nothing wherever it stands, and the scan goes on after
    its ['>']: the text with the token (and the text before its ['<'])
    removed scans to the same outcome.  With blocks that have a byte to
    spare for the three interiors, "<@123> <bogus> <#456>" yields the user
    and the channel.  The failure is not local when a block is filled: on
    glibc's blocks the 24-byte emoji of "<:blob:123456789012345678><bogus>"
    has its terminator stored past its block, where the allocation made for
    the rejected token lands. *)
Theorem rejected_token_is_skipped :
  (forall (usable : nat -> nat) (segs : list segment)
          (junk inner rest : cstring),
      forallb seg_ok segs = true ->
      junk_ok junk = true -> inner_ok inner = true ->
      classify inner = None ->
      fits usable inner = true ->
      find_mentions usable (text_of segs ++ junk ++ token inner ++ rest)
      = find_mentions usable (text_of segs ++ rest))
  /\ (forall usable : nat -> nat,
        fits usable (cstr "@123") = true ->
        fits usable (cstr "bogus") = true ->
        find_mentions usable (cstr "<@123> <bogus> <#456>")
        = Ok [null_mention; mention User "123"; mention Channel "456"])
  /\ (classify (cstr "bogus") = None
      /\ fits glibc_usable (cstr ":blob:123456789012345678") = false
      /\ find_mentions glibc_usable
           (cstr "<:blob:123456789012345678><bogus>")
         = Fault).
Proof.
  split; [|split; [|repeat split]].
  - intros usable segs junk inner rest Hsegs Hj Hi Hrej Hfit.
    rewrite !find_mentions_scan_with.
    apply scan_with_after_segments; [|assumption|discriminate].
    intros acc Hacc. unfold token. simpl. rewrite <- app_assoc. simpl.
    rewrite scan_with_token by assumption.
    now rewrite Hrej, app_nil_r.
  - intros usable H1 H2.
    apply (find_mentions_segments usable
             [mkSegment [] (cstr "@123"); mkSegment (cstr " ") (cstr "bogus");
              mkSegment (cstr " ") (cstr "#456")] []).
    + reflexivity.
    + cbn [forallb]. repeat (apply andb_true_iff; split);
        (exact H1 || exact H2 || reflexivity).
    + reflexivity.
Qed.

Lemma rejected_token_is_skipped_witness :
  find_mentions glibc_usable (cstr "<@123> <bogus> <#456>")
  = find_mentions glibc_usable (cstr "<@123> <#456>").
Proof.
  apply (proj1 rejected_token_is_skipped glibc_usable
           [mkSegment [] (cstr "@123")] (cstr " ") (cstr "bogus")
           (cstr " <#456>"));
    reflexivity.
Defined.

(** * Order of the records *)



(** * Nicknames *)

(** C6.  For a digit string [d], "<@!d>" and "<@d>" both yield the one
    record {User, d} when their interiors fit the blocks that line 71 gets
    for them.  They do not always: on glibc's blocks, with 22 digits, the
    interior of "<@!d>" fills its block of 24 bytes and line 73 stores the
    terminator past it, while "<@d>" yields {User, d}. *)
Theorem nickname_same_as_user :
  (forall (usable : nat -> nat) (d : cstring),
      all_digits d = true ->
      fits usable ("@" :: "!" :: d) = true ->
      fits usable ("@" :: d) = true ->
      find_mentions usable (token ("@" :: "!" :: d))
      = Ok [null_mention; {| id := Some d; type := User |}]
      /\ find_mentions usable (token ("@" :: d))
         = Ok [null_mention; {| id := Some d; type := User |}])
  /\ (forall usable : nat -> nat,
        fits usable (cstr "@!42") = true ->
        find_mentions usable (cstr "<@!42>")
        = Ok [null_mention; mention User "42"])
  /\ (forall usable : nat -> nat,
        fits usable (cstr "@42") = true ->
        find_mentions usable (cstr "<@42>")
        = Ok [null_mention; mention User "42"])
  /\ (all_digits (cstr "1234567890123456789012") = true
      /\ find_mentions glibc_usable (cstr "<@!1234567890123456789012>")
         = Fault
      /\ find_mentions glibc_usable (cstr "<@1234567890123456789012>")
         = Ok [null_mention; mention User "1234567890123456789012"]).
Proof.
  assert (Hgen : forall (usable : nat -> nat) (d : cstring),
             all_digits d = true ->
             (fits usable ("@" :: "!" :: d) = true ->
              find_mentions usable (token ("@" :: "!" :: d))
              = Ok [null_mention; {| id := Some d; type := User |}])
             /\ (fits usable ("@" :: d) = true ->
                 find_mentions usable (token ("@" :: d))
                 = Ok [null_mention; {| id := Some d; type := User |}])).
  { intros usable d Hd.
    pose proof (all_digits_inner_ok d Hd) as Hi.
    destruct (digit_validation_parts usable) as (Htok & Hnick).
    split; intros Hfit.
    - rewrite (Hnick d Hi Hfit). now rewrite Hd.
    - change ("@" :: d) with (prefix_of User ++ d).
      rewrite (Htok User d Hi); [now rewrite Hd | now left | | exact Hfit].
      intros _. now apply digits_not_marked. }
  split; [|split; [|split; [|repeat split]]].
  - intros usable d Hd H1 H2. destruct (Hgen usable d Hd) as (Ha & Hb).
    split; [now apply Ha | now apply Hb].
  - intros usable Hfit.
    now apply (proj1 (Hgen usable (cstr "42") eq_refl)).
  - intros usable Hfit.
    now apply (proj2 (Hgen usable (cstr "42") eq_refl)).
Qed.

Lemma nickname_same_as_user_witness :
  find_mentions glibc_usable (cstr "<@!1234567890>")
  = Ok [null_mention; mention User "1234567890"]
  /\ find_mentions glibc_usable (cstr "<@1234567890>")
     = Ok [null_mention; mention User "1234567890"].
Proof.
  apply (proj1 nickname_same_as_user glibc_usable (cstr "1234567890"));
    reflexivity.
Defined.

(** * Prefixes *)

(** C7.  For a token whose interior fits its block: "@&" and digits make a
    [Role] whose identifier is the digits, "#" and digits a [Channel]
    likewise; an interior that starts with ['a'] or [':'] makes an [Emoji]
    whose identifier is the whole interior, whatever follows the first
    character.  An interior that fills its block has its terminator stored
    past the block: on glibc's blocks "#" with 23 digits, "@&" with 22
    digits and the emoji ":blob:123456789012345678" are such interiors. *)
Theorem prefix_classification :
  (forall (usable : nat -> nat) (d : cstring),
      all_digits d = true ->
      fits usable ("@" :: "&" :: d) = true ->
      find_mentions usable (token ("@" :: "&" :: d))
      = Ok [null_mention; {| id := Some d; type := Role |}])
  /\ (forall (usable : nat -> nat) (d : cstring),
        all_digits d = true ->
        fits usable ("#" :: d) = true ->
        find_mentions usable (token ("#" :: d))
        = Ok [null_mention; {| id := Some d; type := Channel |}])
  /\ (forall (usable : nat -> nat) (c : ascii) (e : cstring),
        c = "a" \/ c = ":" -> inner_ok e = true ->
        fits usable (c :: e) = true ->
        find_mentions usable (token (c :: e))
        = Ok [null_mention; {| id := Some (c :: e); type := Emoji |}])
  /\ (forall usable : nat -> nat,
        fits usable (cstr "@&7") = true ->
        find_mentions usable (cstr "<@&7>")
        = Ok [null_mention; mention Role "7"])
  /\ (forall usable : nat -> nat,
        fits usable (cstr "#8") = true ->
        find_mentions usable (cstr "<#8>")
        = Ok [null_mention; mention Channel "8"])
  /\ (forall usable : nat -> nat,
        fits usable (cstr "a:blob:99") = true ->
        find_mentions usable (cstr "<a:blob:99>")
        = Ok [null_mention; mention Emoji "a:blob:99"])
  /\ (forall usable : nat -> nat,
        fits usable (cstr ":blob:99") = true ->
        find_mentions usable (cstr "<:blob:99>")
        = Ok [null_mention; mention Emoji ":blob:99"])
  /\ (find_mentions glibc_usable (cstr "<#12345678901234567890123> <#7>")
      = Fault
      /\ find_mentions glibc_usable (cstr "<@&1234567890123456789012>")
         = Fault
      /\ find_mentions glibc_usable
           (cstr "<:blob:123456789012345678><@5>")
         = Fault).
Proof.
  assert (Hrole : forall (usable : nat -> nat) (d : cstring),
             all_digits d = true ->
             fits usable ("@" :: "&" :: d) = true ->
             find_mentions usable (token ("@" :: "&" :: d))
             = Ok [null_mention; {| id := Some d; type := Role |}]).
  { intros usable d Hd Hfit.
    change ("@" :: "&" :: d) with (prefix_of Role ++ d).
    rewrite (proj1 (digit_validation_parts usable) Role d
               (all_digits_inner_ok d Hd));
      [now rewrite Hd | auto | discriminate | exact Hfit]. }
  assert (Hchan : forall (usable : nat -> nat) (d : cstring),
             all_digits d = true ->
             fits usable ("#" :: d) = true ->
             find_mentions usable (token ("#" :: d))
             = Ok [null_mention; {| id := Some d; type := Channel |}]).
  { intros usable d Hd Hfit.
    change ("#" :: d) with (prefix_of Channel ++ d).
    rewrite (proj1 (digit_validation_parts usable) Channel d
               (all_digits_inner_ok d Hd));
      [now rewrite Hd | auto | discriminate | exact Hfit]. }
  assert (Hemoji : forall (usable : nat -> nat) (c : ascii) (e : cstring),
             c = "a" \/ c = ":" -> inner_ok e = true ->
             fits usable (c :: e) = true ->
             find_mentions usable (token (c :: e))
             = Ok [null_mention; {| id := Some (c :: e); type := Emoji |}]).
  { intros usable c e Hc He Hfit.
    assert (Hi : inner_ok (c :: e) = true)
      by (destruct Hc as [->| ->]; exact He).
    rewrite find_mentions_token by assumption.
    destruct Hc as [->| ->]; reflexivity. }
  split; [exact Hrole|]. split; [exact Hchan|]. split; [exact Hemoji|].
  split; [intros usable Hfit; now apply (Hrole usable (cstr "7"))|].
  split; [intros usable Hfit; now apply (Hchan usable (cstr "8"))|].
  split.
  { intros usable Hfit.
    apply (Hemoji usable "a" (cstr ":blob:99")); auto. }
  split.
  { intros usable Hfit.
    apply (Hemoji usable ":" (cstr "blob:99")); auto. }
  repeat split.
Qed.

Lemma prefix_classification_witness :
  find_mentions glibc_usable (cstr "<@&900>")
  = Ok [null_mention; mention Role "900"]
  /\ find_mentions glibc_usable (cstr "<#31>")
     = Ok [null_mention; mention Channel "31"]
  /\ find_mentions glibc_usable (cstr "<a b!>")
     = Ok [null_mention; mention Emoji "a b!"].
Proof.
  destruct prefix_classification as (Hrole & Hchan & Hemoji & _).
  split; [|split].
  - apply (Hrole glibc_usable (cstr "900")); reflexivity.
  - apply (Hchan glibc_usable (cstr "31")); reflexivity.
  - apply (Hemoji glibc_usable "a" (cstr " b!")); [left| |]; reflexivity.
Defined.

(** * Scanning the records again *)

Lemma forallb_map_eq {A B : Type} (f : A -> B) (p : B -> bool)
    (l : list A) :
  forallb p (map f l) = forallb (fun a => p (f a)) l.
Proof.
  induction l as [|a l IH]; simpl; [reflexivity | now rewrite IH].
Qed.

Lemma record_ok_token (n : MentionNode) :
  record_ok n = true ->
  inner_ok (prefix_of (type n) ++ id_text n) = true
  /\ classify (prefix_of (type n) ++ id_text n) = Some n.
Proof.
  intros H. pose proof (record_ok_inner_ok n H) as Hi.
  split; [now apply inner_ok_prefix|].
  unfold record_ok, id_text in *. destruct n as [[d|] t]; simpl in *;
    [|discriminate].
  destruct t; try discriminate.
  - rewrite (token_classify_digits User d); auto using digits_not_marked.
    unfold digit_record. now rewrite H.
  - rewrite (token_classify_digits Role d); auto.
    + unfold digit_record. now rewrite H.
    + discriminate.
  - rewrite (token_classify_digits Channel d); auto.
    + unfold digit_record. now rewrite H.
    + discriminate.
  - destruct d as [|c e]; [discriminate|].
    apply andb_true_iff in H as [Hc _]. unfold classify.
    destruct (Ascii.eqb_spec c "a") as [->|Ha]; [reflexivity|].
    destruct (Ascii.eqb_spec c ":") as [->|Hb]; [reflexivity|].
    discriminate.
Qed.

Lemma records_of_serialized (recs : list MentionNode) :
  forallb record_ok recs = true ->
  forallb seg_ok
    (map (fun n => mkSegment [] (prefix_of (type n) ++ id_text n)) recs)
  = true
  /\ records_of
       (map (fun n => mkSegment [] (prefix_of (type n) ++ id_text n)) recs)
     = recs
  /\ text_of
       (map (fun n => mkSegment [] (prefix_of (type n) ++ id_text n)) recs)
     = flat_map serialize recs.
Proof.
  induction recs as [|n recs IH]; [auto|].
  intros H. simpl in H. apply andb_true_iff in H as [Hn H].
  destruct (IH H) as (IH1 & IH2 & IH3).
  destruct (record_ok_token n Hn) as (Hi & Ht).
  cbn [map forallb]. unfold records_of, text_of in *. cbn [flat_map].
  rewrite IH1, IH2, IH3. cbn [seg_inner]. rewrite Ht.
  unfold seg_ok at 1. cbn [seg_junk seg_inner]. rewrite Hi.
  repeat split.
Qed.

(** C8.  The records of a scan, each written back as the token of its kind
    and identifier and the tokens put one after the other, scan to the same
    records when the interiors of these tokens fit their blocks.  They need
    not: on glibc's blocks "<@!12345678901234567890123>" yields a user
    record whose token "<@12345678901234567890123>" has an interior of 24
    bytes, which fills its block; and the scan of
    "<#12345678901234567890123> <#7>" is itself undefined. *)
Theorem rescan_of_serialized_records :
  (forall (usable : nat -> nat) (src : cstring) (recs : list MentionNode),
      find_mentions usable src = Ok (null_mention :: recs) ->
      forallb (fun n => fits usable (prefix_of (type n) ++ id_text n)) recs
      = true ->
      find_mentions usable (flat_map serialize recs)
      = Ok (null_mention :: recs))
  /\ (find_mentions glibc_usable (cstr "<@!12345678901234567890123>")
      = Ok [null_mention; mention User "12345678901234567890123"]
      /\ flat_map serialize [mention User "12345678901234567890123"]
         = cstr "<@12345678901234567890123>"
      /\ find_mentions glibc_usable (cstr "<@12345678901234567890123>")
         = Fault)
  /\ find_mentions glibc_usable (cstr "<#12345678901234567890123> <#7>")
     = Fault.
Proof.
  split; [|repeat split].
  intros usable src recs H Hfits. rewrite find_mentions_scan_with in H.
  apply scan_with_records in H as (recs' & E & Hok); [|discriminate].
  injection E as <-.
  destruct (records_of_serialized recs Hok) as (H1 & H2 & H3).
  rewrite <- H3, <- (app_nil_r (text_of _)).
  rewrite find_mentions_segments; [now rewrite H2 | exact H1 | | reflexivity].
  rewrite forallb_map_eq. exact Hfits.
Qed.

Lemma rescan_of_serialized_records_witness :
  find_mentions glibc_usable (cstr "<@!1> x <@&2><y><#3> z <a:b:4> <:c:5>")
  = Ok [null_mention; mention User "1"; mention Role "2";
        mention Channel "3"; mention Emoji "a:b:4"; mention Emoji ":c:5"]
  /\ flat_map serialize
       [mention User "1"; mention Role "2"; mention Channel "3";
        mention Emoji "a:b:4"; mention Emoji ":c:5"]
     = cstr "<@1><@&2><#3><a:b:4><:c:5>"
  /\ find_mentions glibc_usable (cstr "<@1><@&2><#3><a:b:4><:c:5>")
     = Ok [null_mention; mention User "1"; mention Role "2";
           mention Channel "3"; mention Emoji "a:b:4"; mention Emoji ":c:5"].
Proof.
  split; [reflexivity|]. split; [reflexivity|].
  apply (proj1 rescan_of_serialized_records glibc_usable
           (cstr "<@!1> x <@&2><y><#3> z <a:b:4> <:c:5>")
           [mention User "1"; mention Role "2"; mention Channel "3";
            mention Emoji "a:b:4"; mention Emoji ":c:5"]);
    reflexivity.
Defined.

(** * Identifiers hold no delimiter *)

(** C9.  When the scan returns, having stored every terminator inside its
    block, no identifier of the list holds ['<'] or ['>'].  When an interior
    fills its block the identifier is read up to whatever byte lies past
    the block, outside the token: on glibc's blocks
    "<#12345678901234567890123>" is such a token. *)
Theorem identifiers_without_delimiters :
  (forall (usable : nat -> nat) (src : cstring) (res : list MentionNode)
          (n : MentionNode) (s : cstring),
      find_mentions usable src = Ok res ->
      In n res -> id n = Some s ->
      ~ In "<" s /\ ~ In ">" s)
  /\ (fits glibc_usable (cstr "#12345678901234567890123") = false
      /\ forall rest : cstring,
           find_mentions glibc_usable
             (cstr "<#12345678901234567890123>" ++ rest) = Fault).
Proof.
  split.
  - intros usable src res n s H Hin Hid.
    rewrite find_mentions_scan_with in H.
    apply scan_with_records in H as (recs & -> & Hok); [|discriminate].
    destruct Hin as [<- | Hin]; [discriminate|].
    rewrite forallb_forall in Hok.
    pose proof (record_ok_inner_ok n (Hok n Hin)) as Hi.
    unfold id_text in Hi. rewrite Hid in Hi. unfold inner_ok in Hi.
    apply andb_true_iff in Hi as [Hi _].
    apply andb_true_iff in Hi as [Hl Hr].
    split; now apply no_char_In.
  - split; [reflexivity|]. intros rest.
    apply (find_mentions_token_overflow glibc_usable
             (cstr "#12345678901234567890123") rest); reflexivity.
Qed.

Lemma identifiers_without_delimiters_witness :
  ~ In "<" (cstr "a:b") /\ ~ In ">" (cstr "a:b").
Proof.
  apply (proj1 identifiers_without_delimiters glibc_usable
           (cstr "<<a:b> <")
           [null_mention; mention Emoji "a:b"] (mention Emoji "a:b")
           (cstr "a:b")).
  - reflexivity.
  - right. left. reflexivity.
  - reflexivity.
Defined.

(** * Length of the result *)

(** C10.  An iteration that goes on has passed exactly one ['>'] and has
    added at most one node; the records returned are no more than the ['>']
    of the text, and the empty text yields none. *)
Theorem records_bounded_by_rab_count :
  (forall (usable : nat -> nat) (buf : cstring) (ptr ptr' : nat)
          (mentions mentions' : list MentionNode),
      find_mention usable buf ptr mentions = Ok (Some ptr', mentions') ->
      count_occ ascii_dec (firstn (ptr' - ptr) (skipn ptr buf)) ">" = 1
      /\ length mentions <= length mentions' <= S (length mentions))
  /\ (forall (usable : nat -> nat) (src : cstring)
             (res : list MentionNode),
        find_mentions usable src = Ok res ->
        length (tl res) <= count_occ ascii_dec src ">")
  /\ (forall usable : nat -> nat,
        find_mentions usable [] = Ok [null_mention]).
Proof.
  split; [|split; [|reflexivity]].
  - intros usable buf ptr ptr' mentions mentions'.
    unfold find_mention, strchr.
    destruct (strchr_loop (skipn ptr buf) ptr ">") as [rab|] eqn:E;
      [|discriminate].
    apply strchr_loop_Some in E as (t & rest & -> & Ht & ->).
    destruct (add_mention usable buf mentions _ _) as [m'| |] eqn:Ea;
      simpl; try discriminate.
    intros [= <- <-].
    assert (Hwin : count_occ ascii_dec
                     (firstn (S (ptr + length t) - ptr) (t ++ ">" :: rest))
                     ">" = 1).
    { replace (S (ptr + length t) - ptr) with (length t + 1) by lia.
      replace (t ++ ">" :: rest) with ((t ++ [">"]) ++ rest)
        by (now rewrite <- app_assoc).
      rewrite firstn_app, firstn_all2 by (rewrite length_app; simpl; lia).
      rewrite length_app. simpl.
      replace (length t + 1 - (length t + 1)) with 0 by lia.
      simpl. rewrite app_nil_r, count_occ_app. simpl.
      unfold junk_ok in Ht. apply andb_true_iff in Ht as [Hr _].
      now rewrite no_char_count. }
    split; [exact Hwin|].
    apply add_mention_appends in Ea as [->|(n & ->)].
    + lia.
    + rewrite length_app. simpl. lia.
  - intros usable src res H. rewrite find_mentions_scan_with in H.
    apply scan_with_length in H; [|discriminate]. simpl in H.
    destruct res; simpl in *; lia.
Qed.

Lemma records_bounded_by_rab_count_witness :
  length (tl [null_mention; mention User "5"])
  <= count_occ ascii_dec (cstr "<x><@5>") ">".
Proof.
  apply (proj1 (proj2 records_bounded_by_rab_count) glibc_usable
           (cstr "<x><@5>")).
  reflexivity.
Defined.

(** * The nearest ['<'] *)

Lemma find_closest_lab_loop_spec (buf : cstring) (src p : nat) :
  src <= p ->
  src <= find_closest_lab_loop buf src p <= p
  /\ (forall i, find_closest_lab_loop buf src p < i <= p ->
                deref buf i <> "<")
  /\ (src < find_closest_lab_loop buf src p ->
      deref buf (find_closest_lab_loop buf src p) = "<").
Proof.
  induction p as [|p IH]; intros Hsrc.
  - simpl. repeat split; lia.
  - simpl. destruct (Ascii.eqb_spec (deref buf (S p)) "<") as [E|E]; simpl.
    + repeat split; try lia. intros _. exact E.
    + destruct (Nat.ltb_spec src (S p)) as [Hlt|Hge].
      * destruct IH as (Hr & Hno & Hat); [lia|].
        repeat split; try lia; [|exact Hat].
        intros i Hi. destruct (Nat.eq_dec i (S p)) as [->|Hne];
          [exact E | apply Hno; lia].
      * repeat split; lia.
Qed.

Lemma find_closest_lab_spec (buf : cstring) (src rab : nat) :
  src <= rab ->
  match find_closest_lab buf src rab with
  | Some lab =>
      src <= lab <= rab /\ deref buf lab = "<"
      /\ forall i, lab < i <= rab -> deref buf i <> "<"
  | None => forall i, src <= i <= rab -> deref buf i <> "<"
  end.
Proof.
  intros Hsrc. unfold find_closest_lab.
  destruct (find_closest_lab_loop_spec buf src rab Hsrc) as (Hr & Hno & Hat).
  destruct (Nat.eqb_spec (find_closest_lab_loop buf src rab) src) as [E|E];
    simpl.
  - destruct (Ascii.eqb_spec (deref buf (find_closest_lab_loop buf src rab))
                "<") as [El|El]; simpl.
    + repeat split; try lia; assumption.
    + intros i Hi. destruct (Nat.eq_dec i src) as [->|Hne].
      * now rewrite <- E.
      * apply Hno. lia.
  - repeat split; try lia; [|assumption]. apply Hat. lia.
Qed.

(** X1.  Called with the cursor at or before [rab], [find_closest_lab]
    returns the last ['<'] between the cursor and [rab], and NULL exactly
    when there is none. *)
Theorem find_closest_lab_nearest (buf : cstring) (src rab : nat) :
  src <= rab ->
  match find_closest_lab buf src rab with
  | Some lab =>
      src <= lab <= rab /\ deref buf lab = "<"
      /\ forall i, lab < i <= rab -> deref buf i <> "<"
  | None => forall i, src <= i <= rab -> deref buf i <> "<"
  end.
Proof. apply find_closest_lab_spec. Qed.

Lemma find_closest_lab_nearest_witness :
  (2 <= 4 <= 9 /\ deref (cstr "<a<b<cd>ef>") 4 = "<"
   /\ forall i, 4 < i <= 9 -> deref (cstr "<a<b<cd>ef>") i <> "<")
  /\ (forall i, 8 <= i <= 10 -> deref (cstr "<a<b<cd>ef>") i <> "<").
Proof.
  split.
  - apply (find_closest_lab_nearest (cstr "<a<b<cd>ef>") 2 9). lia.
  - apply (find_closest_lab_nearest (cstr "<a<b<cd>ef>") 8 10). lia.
Defined.

(** X13.  In [find_mention] the ['<'] that [find_closest_lab] returns, when
    it is not NULL, lies at or after the cursor and strictly before the
    ['>'] that [strchr] found: the length [(rab - lab) - 1] that
    [new_mention] hands to [malloc] and [strncpy] is never negative. *)
Theorem lab_before_rab (buf : cstring) (src rab lab : nat) :
  strchr buf src ">" = Some rab ->
  find_closest_lab buf src rab = Some lab ->
  src <= lab < rab /\ deref buf lab = "<" /\ deref buf rab = ">".
Proof.
  intros Hrab Hlab. unfold strchr in Hrab.
  apply strchr_loop_Some in Hrab as (t & rest & Hs & _ & ->).
  assert (Hgt : deref buf (src + length t) = ">").
  { unfold deref. rewrite <- nth_skipn, Hs. apply nth_middle. }
  pose proof (find_closest_lab_spec buf src (src + length t)) as H.
  rewrite Hlab in H. destruct H as (Hr & Hl & _); [lia|].
  repeat split; try assumption; try lia.
  destruct (Nat.eq_dec lab (src + length t)) as [->|Hne]; [|lia].
  rewrite Hgt in Hl. discriminate.
Qed.

Lemma lab_before_rab_witness :
  2 <= 4 < 7 /\ deref (cstr "<a<b<cd>ef>") 4 = "<"
  /\ deref (cstr "<a<b<cd>ef>") 7 = ">".
Proof.
  apply (lab_before_rab (cstr "<a<b<cd>ef>") 2 7 4); reflexivity.
Defined.

(** * Text before the cursor, text after a NUL *)

(** X2.  An iteration and the whole loop look at the buffer from the cursor
    on only: with any text put in front of the buffer and the cursor moved
    by its length, [find_mention] yields the same list and the same cursor,
    moved likewise, and the loop the same outcome. *)
Theorem scan_ignores_text_before_cursor (usable : nat -> nat)
    (pre buf : cstring) (ptr fuel : nat) (mentions : list MentionNode) :
  find_mention usable (pre ++ buf) (length pre + ptr) mentions
  = rmap (fun r => (option_map (Nat.add (length pre)) (fst r), snd r))
      (find_mention usable buf ptr mentions)
  /\ find_mentions_loop usable fuel (pre ++ buf) (length pre + ptr) mentions
     = find_mentions_loop usable fuel buf ptr mentions.
Proof.
  split.
  - apply find_mention_shift.
  - apply find_mentions_loop_shift.
Qed.

(** X3.  The scan stops at the first NUL byte of the text: what follows it
    is never looked at, so a text and its part before the first NUL scan to
    the same outcome. *)
Theorem scan_stops_at_NUL :
  (forall (usable : nat -> nat) (src : cstring),
      find_mentions usable src = find_mentions usable (strcpy src))
  /\ (forall (usable : nat -> nat) (s t : cstring),
        no_char NUL s = true ->
        find_mentions usable (s ++ NUL :: t) = find_mentions usable s).
Proof.
  assert (H : forall usable src,
             find_mentions usable src = find_mentions usable (strcpy src)).
  { intros usable src. rewrite !find_mentions_scan_with.
    symmetry. apply scan_with_strcpy. discriminate. }
  split; [exact H|].
  intros usable s t Hs. rewrite (H usable (s ++ NUL :: t)).
  rewrite strcpy_app_NUL_free by exact Hs. simpl. now rewrite app_nil_r.
Qed.

Lemma scan_stops_at_NUL_witness :
  find_mentions glibc_usable (cstr "<@1>" ++ NUL :: cstr "<@2> >")
  = find_mentions glibc_usable (cstr "<@1>").
Proof.
  apply (proj2 scan_stops_at_NUL glibc_usable (cstr "<@1>") (cstr "<@2> >")).
  reflexivity.
Defined.

(** * Concatenation *)

(** X4.  The scan of tokens that fit their blocks, followed by any text, is
    the scan of that text with the records the table gives for the tokens
    put in front, in order (a fault of the text stays a fault); and the text
    between the tokens does not count: the tokens alone scan to the same
    outcome. *)
Theorem scan_of_tokens_then_text (usable : nat -> nat)
    (segs : list segment) (rest : cstring) :
  forallb seg_ok segs = true ->
  forallb (seg_fits usable) segs = true ->
  find_mentions usable (text_of segs ++ rest)
  = rmap (fun m => null_mention :: records_of segs ++ tl m)
      (find_mentions usable rest)
  /\ find_mentions usable (text_of segs ++ rest)
     = find_mentions usable
         (flat_map (fun s => token (seg_inner s)) segs ++ rest).
Proof.
  intros Hsegs Hfits.
  assert (Hscan : find_mentions usable (text_of segs ++ rest)
                  = scan_with usable rest (null_mention :: records_of segs)).
  { rewrite find_mentions_scan_with.
    now rewrite scan_with_segments by (assumption || discriminate). }
  split.
  - rewrite Hscan. now rewrite scan_with_acc by discriminate.
  - rewrite Hscan.
    set (bare := map (fun s => mkSegment [] (seg_inner s)) segs).
    assert (Htext : flat_map (fun s => token (seg_inner s)) segs
                    = text_of bare).
    { unfold bare, text_of. clear. induction segs as [|s segs IH];
        [reflexivity|].
      simpl. now rewrite IH. }
    assert (Hok : forallb seg_ok bare = true).
    { unfold bare. clear Hscan Htext Hfits.
      induction segs as [|s segs IH]; [reflexivity|].
      simpl in *. apply andb_true_iff in Hsegs as [Hs Hsegs].
      rewrite (IH Hsegs), andb_true_r. unfold seg_ok in *. simpl.
      now apply andb_true_iff in Hs as [_ ->]. }
    assert (Hbf : forallb (seg_fits usable) bare = true).
    { unfold bare. rewrite forallb_map_eq. exact Hfits. }
    assert (Hm : records_of bare = records_of segs).
    { unfold bare, records_of. clear. induction segs as [|s segs IH];
        [reflexivity|].
      simpl. now rewrite IH. }
    rewrite Htext, find_mentions_scan_with.
    rewrite scan_with_segments by (assumption || discriminate).
    now rewrite Hm.
Qed.

Lemma scan_of_tokens_then_text_witness :
  find_mentions glibc_usable (cstr "x <@1> y<z <#2>< <a>")
  = Ok [null_mention; mention User "1"; mention Channel "2";
        mention Emoji "a"]
  /\ find_mentions glibc_usable (cstr "x <@1> y<z <#2>< <a>")
     = find_mentions glibc_usable (cstr "<@1><#2>< <a>").
Proof.
  apply (scan_of_tokens_then_text glibc_usable
           [mkSegment (cstr "x ") (cstr "@1");
            mkSegment (cstr " y<z ") (cstr "#2")]
           (cstr "< <a>"));
    reflexivity.
Defined.

(** X5.  A text that makes the scan fault still does so with any text put
    after it. *)
Theorem fault_stays_with_more_text (usable : nat -> nat) (s t : cstring) :
  find_mentions usable s = Fault -> find_mentions usable (s ++ t) = Fault.
Proof.
  intros H. rewrite find_mentions_scan_with in *.
  destruct (scan_with_outcome usable s [null_mention])
    as [(segs & tail & _ & _ & _ & _ & E)
       |(segs & t0 & rest & -> & Hsegs & Hfits & Ht & Hcause & _)];
    [discriminate| |].
  - rewrite E in H. discriminate.
  - rewrite <- !app_assoc. simpl.
    rewrite scan_with_segments by (assumption || discriminate).
    destruct Hcause as [Hl | (junk & inner & -> & Hi & Hover)].
    + now apply scan_with_unmatched.
    + rewrite <- app_assoc. simpl.
      apply scan_with_overflow; try assumption.
      unfold junk_ok in *. rewrite !no_char_app in Ht.
      apply andb_true_iff in Ht as [Hr Hn].
      apply andb_true_iff in Hr as [-> _].
      now apply andb_true_iff in Hn as [-> _].
Qed.

Lemma fault_stays_with_more_text_witness :
  find_mentions glibc_usable (cstr "a>" ++ cstr "<@1>") = Fault.
Proof.
  apply (fault_stays_with_more_text glibc_usable (cstr "a>") (cstr "<@1>")).
  reflexivity.
Defined.

(** * The default case *)

(** X7.  A token whose interior fits its block and is empty, or starts with
    a character other than ['@'], ['#'], ['a'] and [':'], yields no record,
    whatever follows that character. *)
Theorem unknown_prefix_yields_nothing (usable : nat -> nat)
    (inner : cstring) :
  inner_ok inner = true ->
  fits usable inner = true ->
  Ascii.eqb (deref inner 0) "@" = false ->
  Ascii.eqb (deref inner 0) "#" = false ->
  Ascii.eqb (deref inner 0) "a" = false ->
  Ascii.eqb (deref inner 0) ":" = false ->
  find_mentions usable (token inner) = Ok [null_mention].
Proof.
  intros Hi Hfit H1 H2 H3 H4.
  rewrite find_mentions_token by assumption.
  destruct inner as [|c e]; [reflexivity|].
  unfold deref in *. simpl in *. now rewrite H1, H2, H3, H4.
Qed.

Lemma unknown_prefix_yields_nothing_witness :
  find_mentions glibc_usable (token (cstr "A:blob:99")) = Ok [null_mention]
  /\ find_mentions glibc_usable (token (cstr "")) = Ok [null_mention].
Proof.
  split.
  - apply (unknown_prefix_yields_nothing glibc_usable (cstr "A:blob:99"));
      reflexivity.
  - apply (unknown_prefix_yields_nothing glibc_usable (cstr ""));
      reflexivity.
Defined.

(** * Signedness of char *)

(** X8.  [ensure_int_str] gives the same answer whether [char] is signed or
    unsigned: a byte of [128] or more is below ['0'] in the first case and
    above ['9'] in the second, and is refused in both. *)
Theorem ensure_int_str_any_signedness (str : cstring) :
  ensure_int_str_unsigned str = ensure_int_str str.
Proof.
  unfold ensure_int_str_unsigned, ensure_int_str. generalize true.
  induction str as [|c str IH]; intros b; simpl; [reflexivity|].
  destruct (Ascii.eqb c NUL); [reflexivity|].
  now rewrite digit_test_unsigned, IH.
Qed.

(** * Giving the list back *)

(** X9.  [destroy_mentions] gives back every node of the list and every
    identifier, but for one: the identifier of the last node stays
    allocated when that node has the type [Error].  On NULL it faults. *)
Theorem destroy_mentions_frees_all_but_last_error :
  (forall (mentions : list MentionNode) (live : Z),
      mentions <> [] ->
      destroy_mentions mentions live
      = Ok (tt, (live - blocks_of mentions + kept_by_destroy mentions)%Z))
  /\ (forall live : Z, destroy_mentions [] live = Fault).
Proof.
  split; [exact destroy_mentions_spec | reflexivity].
Qed.

Lemma destroy_mentions_frees_all_but_last_error_witness :
  destroy_mentions [null_mention; mention User "1"] 3%Z = Ok (tt, 0%Z)
  /\ destroy_mentions [{| id := Some (cstr "x"); type := Error |}] 2%Z
     = Ok (tt, 1%Z).
Proof.
  split.
  - apply (proj1 destroy_mentions_frees_all_but_last_error
             [null_mention; mention User "1"] 3%Z).
    discriminate.
  - apply (proj1 destroy_mentions_frees_all_but_last_error
             [{| id := Some (cstr "x"); type := Error |}] 2%Z).
    discriminate.
Defined.

(** * The Ruby binding *)

(** X10.  On a String on which [find_mentions] returns, the binding returns
    what it found and nothing else: the array that holds, for each record
    after the head sentinel and in the same order, the pair of the Symbol of
    its kind and of its identifier as a String; no record is left out and
    no identifier is cut.  When the behaviour of [find_mentions] is
    undefined, so is that of the call. *)
Theorem rb_parse_mentions_returns_pairs (usable : nat -> nat)
    (self : VALUE) (s : string) (live : Z) :
  match find_mentions usable (cstr s) with
  | Ok res =>
      exists live',
        rb_parse_mentions usable self (T_STRING s) live
        = Ok (T_ARRAY (map rb_pair (tl res)), live')
  | Fault => rb_parse_mentions usable self (T_STRING s) live = Fault
  | OutOfFuel => False
  end.
Proof. apply rb_parse_mentions_string. Qed.

(** * What a scan leaves allocated *)

(** X12.  After a scan of tokens that fit their blocks and
    [destroy_mentions] on its list, every block that [null_mention] and
    [new_mention] obtained from [malloc] has been given back, but for one
    block for each channel token that fails the digit validation:
    [new_mention] stores the copy of its identifier in a node of type
    [Error], [add_mention] drops that node and nothing frees the
    identifier. *)
Theorem rejected_channels_leak_identifier (usable : nat -> nat)
    (segs : list segment) (tail : cstring) (live : Z) :
  forallb seg_ok segs = true ->
  forallb (seg_fits usable) segs = true ->
  strchr tail 0 ">" = None ->
  (mentions <~ find_mentions_mem usable (text_of segs ++ tail) ;;
   destroy_mentions mentions) live
  = Ok (tt,
        (live + Z.of_nat (length (filter rejected_channel
                                    (map seg_inner segs))))%Z).
Proof.
  intros Hsegs Hfits Htail.
  pose proof (records_of_record_ok segs Hsegs) as Hok.
  destruct (blocks_of_records (records_of segs) Hok) as (Hb & Hk).
  unfold mbind. rewrite find_mentions_mem_segments by assumption.
  rewrite destroy_mentions_spec by discriminate.
  rewrite Hk, blocks_of_cons, Hb.
  cbn [id null_mention]. do 2 f_equal. lia.
Qed.

Lemma rejected_channels_leak_identifier_witness :
  (mentions <~ find_mentions_mem glibc_usable
                 (cstr "<#1> <#x> <@y> <b> <#2z><:e:3>") ;;
   destroy_mentions mentions) 0%Z
  = Ok (tt, 2%Z).
Proof.
  apply (rejected_channels_leak_identifier glibc_usable
           [mkSegment (cstr "") (cstr "#1");
            mkSegment (cstr " ") (cstr "#x");
            mkSegment (cstr " ") (cstr "@y");
            mkSegment (cstr " ") (cstr "b");
            mkSegment (cstr " ") (cstr "#2z");
            mkSegment (cstr "") (cstr ":e:3")]
           (cstr "") 0%Z);
    reflexivity.
Defined.
